(* ===== verification/_CoqProject ===== *)
-Q . S2P
Prelude.v
Sampler.v
Confidence.v
Identity.v
Faces.v
Smoothing.v
Summary.v
Pipeline.v
Capture.v
Cli.v
Download.v
