(* ===== verification/Prelude.v ===== *)
(** * MagicClips face tracking: a verification development

    The repository (Rag50/MagicClips) has two Python programs.
    - [src/face_detection.py] turns a video into a JSON face-track report.
      [detect_faces_in_video] reads every frame with OpenCV and analyses
      one frame in [frame_skip]. It finds faces with a Haar cascade,
      encodes each with [face_recognition], and names the speaker with
      [identify_speaker] against a registry ([known_face_encodings],
      [known_face_names], [speaker_id_counter]). It scores the face with
      [calculate_face_confidence] and appends a record to [all_faces].
      After the loop it summarises the speakers ([create_speaker_summary],
      on the unsmoothed faces), smooths the tracks ([smooth_face_tracking])
      and dumps the report as JSON. [main] checks the arguments and the
      paths and creates the output directory.
    - [src/download.py] wraps [yt_dlp]: [download_video] downloads the
      video, asks for its description a second time and returns the
      file name; its [__main__] prints the path or the error.

    Files, in dependency order (each opens with what it holds):
    - [Prelude] (this file): CPython and numpy builtins written out. These
      are two-argument [min]/[max], [list.sort(key=...)] as a stable
      insertion sort, [numpy.argmin], and [float(int)]. Also here: the
      [py_scope] notation, the [magic] hint databases, and the lemmas on
      stable sorting (permutation, order, stability, commuting with
      [filter]) and on [argmin] (first least element).
    - [Sampler]: [frame_skip] (line 39) and the skip test (lines 49-52).
    - [Confidence]: [calculate_face_confidence] on binary64 [float].
    - [Identity]: [identify_speaker] and the registration of lines 82-88
      ([resolve]). The state is the [registry] record. The distance is a
      section variable.
    - [Faces]: the [face] record ([face_data], lines 94-104), the
      timestamp order, and speakers in first-seen order.
    - [Smoothing]: [smooth_face_tracking] (lines 234-273). The
      [defaultdict(list)] is an association list in insertion order.
    - [Summary]: [create_speaker_summary] (lines 188-232), with its
      statistics dictionary.
    - [Pipeline]: [detect_faces_in_video] (lines 9-143). It uses explicit
      state passing ([loop_state]) and one step per frame read
      ([process_frame]) and per box ([process_face]). The detector, the
      encoder and the metric form the class [Adapters], the interface the
      loop is proved against. An exception that escapes the loop is
      [None]; the ones the loop catches leave the state unchanged. The
      report of lines 120-137 is [assemble_report].
    - [Capture]: the whole of [detect_faces_in_video] as a labelled step
      relation [step] on configurations ([Start], [Scanning] with the
      unread frames, [AfterLoop], [Released], [Stopped]). Its events are
      what the code does to the capture ([Read], [ReadEnd], [Release]).
      [next] is the same relation as a function and [run_for] runs it
      with fuel.
    - [Cli]: [main] (lines 275-294) over a [world] record. It covers
      [os.path.dirname] and the JSON write, modelled by the Python type of
      every value [json.dump] meets.
    - [Download]: src/download.py. [download_video] and [__main__] are in
      a small error-state monad ([ret], [bind], [try_except]) over the
      world of the class [YoutubeDL], whose three calls are [yt_dlp]'s.

    What is proved (claim ids in the doc comments):
    - Identity: [resolve] refines a nearest-neighbour contract and keeps
      the registry invariant (names [speaker_1..speaker_n], counter
      [n + 1]). The loop numbers speakers in first-seen order from 1
      ([run_loop_speaker_order]).
    - Smoothing: per speaker, the output is the 3-point window on that
      speaker's faces in time order. Only positions change, the output
      is chronological, groups of at most two are unchanged, and smoothed
      coordinates stay between their neighbours.
    - Summary: one entry per speaker, exact counts, first and last
      sightings, non-negative screen time, and a descending stable
      ranking. Modelling CPython's TimSort by an insertion sort is exact:
      any stable descending sort of the entries gives the same list
      (the lemma [summary_sort_independent], via [sort_by_unique]).
    - Sampler: the analysed frames are [0, skip, 2 skip, ...]. Confidence
      always lies in [0, 100], and a box covering the whole frame scores
      exactly 100 for every frame of fewer than 2^31 pixels. The proof
      computes with the SpecFloat rounding: [x / x = 1] for every finite
      float. [frame_skip] is [max(1, floor(fps / 2))], one less than the
      specification's rounded rule when [fps / 2] has a fractional part
      above one half.
    - Pipeline and Cli: the loop raises exactly when the container reports
      0 frames and at least ten frames are analysed. Otherwise it
      completes, and the frame accounting is exact. [report_wf]: the
      report counts its faces, lists them chronologically, keeps every
      confidence in [0, 100] and has a summary entry for every face's
      speaker. The error paths of [main] are proved, and so is the failed
      write of any report that holds a face. A command line of the wrong
      length and an output file that cannot be opened end with status 1
      and no output. [report_faces_typed]: under
      the detector's contract every face is a Detection of the
      specification's data model.
    - Capture: a completed run reads each frame once and releases the
      capture once, last; a run that raises never calls [cap.release()]
      ([capture_trace]). Every reachable configuration satisfies the loop
      invariant, by induction on runs ([reachable_inv]). Between any two
      points of a run, faces and registry entries are only appended
      ([history_append_only]). Library facts used by these proofs: the
      relation is deterministic, agrees with [detect_faces_in_video]
      ([steps_detect_iff]), and stops within the number of frames plus
      four moves ([run_for_stops]).
    - Round trips: resolving an encoding twice gives the same speaker and
      registry ([resolve_again]). Feeding the report's faces back to the
      aggregator reproduces every speaker's statistics except
      [avg_position] ([summary_roundtrip]). The proof goes through the
      chronology of the collected faces and the per-speaker track keys
      that smoothing keeps.
    - One person, one speaker: when every face encodes to vectors of a
      single person, the report has exactly one speaker, [speaker_1],
      counting every face of the report ([one_person_one_speaker]); the
      specification's end-to-end scenario is an instance.
    - Download: the usage error, when the script exits 0, and a failure
      after a completed download.
    - Findings. Some are general theorems above ([int] versus [round] in
      [frame_skip]; the [<=] tolerance of [resolve_refines]; the
      unreleased capture; the late download failure). Others are
      [Example]s that evaluate one concrete input:
      - the specification's end-to-end numbers;
      - the match at distance exactly 0.6;
      - statistics computed before smoothing (only [avg_position]
        differs, by [summary_roundtrip]);
      - smoothed boxes leaving the frame;
      - the [int32] product [w * h] wrapping for boxes above 2^31 pixels;

    Numbers and bounds. Python floats that enter comparisons and sorts
    (fps, timestamps, screen time, distances) are exact rationals [Q]. The
    rounding of [frame_count / fps] is monotone, so it keeps the order of
    the timestamps of a real video. Screen time [last - first] is an exact
    subtraction where the code subtracts binary64 values: two speakers
    whose exact screen times tie can get keys that differ in the last bit
    (at 25 fps, frames 1 to 9 give 3.8400000000000003 and frames 0 to 8
    give 3.84), so the code may order them where the model keeps their
    first-seen order. The ranking theorems hold for whatever key is
    sorted. The confidence score is computed on binary64 [float], so
    [sqrt], the rounding and the NaN behaviour of the clamp are the
    code's. [float_of_Z] is exact below 2^53. Pixel values are [Z]. The
    numpy [int32] product [w * h] of line 173 wraps ([int32_wrap]); the
    other [int32] sums (centres, the smoothing window) are kept exact, as
    they cannot wrap for boxes inside a frame of fewer than 2^30 pixels a
    side. [int((a+b+c)/3)] is [Z.quot (a+b+c) 3], exact because the sum
    of three int32 values is below 2^53. [run_loop] recurses on
    the finite list of decoded frames, so it terminates by construction.
    The fuel of [run_for] is [measure c]: one move per unread frame plus
    at most four (enter, end of stream, release, report), which
    [run_for_stops] shows is enough.

    Not modelled: the OpenCV detector and the [face_recognition] encoder
    and metric (fields of [Adapters]); [yt_dlp] itself (the class
    [YoutubeDL]); the printed log lines; the text of the JSON document
    (only its serialisability). Plan for the next sittings:
    - the JSON text for reports without faces;
    - the order in which [json.dump] meets the values. *)

From Stdlib Require Import ZArith QArith List Sorted Permutation Bool Lia Floats.
From Stdlib Require Uint63.
Import ListNotations.

Declare Scope py_scope.
Delimit Scope py_scope with py.
(** Python's floor division on ints. *)
Notation "a // b" := (Z.div a b) (at level 40, left associativity) : py_scope.

Create HintDb magic.
Create Rewrite HintDb magic_rw.

(** ** Comparisons of CPython's builtins *)

(** [a < b] on Python floats modelled exactly. *)
Definition qltb (a b : Q) : bool := negb (Qle_bool b a).

Lemma qltb_iff a b : qltb a b = true <-> a < b.
Proof.
  unfold qltb. rewrite negb_true_iff.
  split; intro H.
  - apply Qnot_le_lt. intro H'. apply Qle_bool_iff in H'. congruence.
  - destruct (Qle_bool b a) eqn:E; [|reflexivity].
    apply Qle_bool_iff in E. exfalso. apply (Qlt_not_le a b); assumption.
Qed.

Lemma qltb_false_iff a b : qltb a b = false <-> b <= a.
Proof.
  unfold qltb. rewrite negb_false_iff. apply Qle_bool_iff.
Qed.

Section Builtins.
Context {A : Type} (lt : A -> A -> bool).

(** CPython's two-argument [max(a, b)] keeps [a] unless [b > a];
    [min(a, b)] keeps [a] unless [b < a]. *)
Definition py_max (a b : A) : A := if lt a b then b else a.
Definition py_min (a b : A) : A := if lt b a then b else a.

(** [list.sort(key=...)]: CPython's sort is stable. A stable insertion
    sort inserts each element before the first element that is not
    strictly smaller. *)
Fixpoint insert_by (a : A) (l : list A) : list A :=
  match l with
  | [] => [a]
  | b :: l' => if lt b a then b :: insert_by a l' else a :: b :: l'
  end.

Fixpoint sort_by (l : list A) : list A :=
  match l with
  | [] => []
  | a :: l' => insert_by a (sort_by l')
  end.

(** The two elements are equivalent for the sort key. *)
Definition key_equiv (a b : A) : bool := negb (lt a b) && negb (lt b a).

End Builtins.

Arguments insert_by {A} lt a l.
Arguments sort_by {A} lt l.

(** [numpy.argmin] on a list of distances: the index of the first
    minimum; [None] is the [ValueError] numpy raises on an empty array. *)
Fixpoint argmin_from (l : list Q) (i best : nat) (m : Q) : nat :=
  match l with
  | [] => best
  | d :: l' => if qltb d m then argmin_from l' (S i) i d
               else argmin_from l' (S i) best m
  end.

Definition argmin (l : list Q) : option nat :=
  match l with
  | [] => None
  | d :: l' => Some (argmin_from l' 1 0 d)
  end.

(** Python's [float(n)] for an int (numpy's int-to-float64 conversion):
    the nearest binary64, exact below 2^53 and valid below 2^63. *)
Definition float_of_Z (z : Z) : float :=
  if (z <? 0)%Z then PrimFloat.opp (PrimFloat.of_uint63 (Uint63.of_Z (- z)))
  else PrimFloat.of_uint63 (Uint63.of_Z z).

(** numpy [int32] arithmetic wraps modulo 2^32 into [[-2^31, 2^31)]
    (two's complement, as coqutil's [byte.swrap] for 8 bits). *)
Definition int32_wrap (z : Z) : Z := ((z + 2^31) mod 2^32 - 2^31)%Z.

Lemma int32_wrap_small z : (-2^31 <= z < 2^31)%Z -> int32_wrap z = z.
Proof. intro H. unfold int32_wrap. rewrite Z.mod_small by lia. lia. Qed.

Lemma py_min_q_le a t : py_min qltb a t <= a /\ py_min qltb a t <= t.
Proof.
  unfold py_min. destruct (qltb t a) eqn:E.
  - apply qltb_iff in E. split; [now apply Qlt_le_weak|apply Qle_refl].
  - apply qltb_false_iff in E. split; [apply Qle_refl|exact E].
Qed.

Lemma py_max_q_ge a t : a <= py_max qltb a t /\ t <= py_max qltb a t.
Proof.
  unfold py_max. destruct (qltb a t) eqn:E.
  - apply qltb_iff in E. split; [now apply Qlt_le_weak|apply Qle_refl].
  - apply qltb_false_iff in E. split; [apply Qle_refl|exact E].
Qed.

Lemma py_min_cases {A} (lt : A -> A -> bool) a t : py_min lt a t = a \/ py_min lt a t = t.
Proof. unfold py_min. destruct (lt t a); auto. Qed.

Lemma py_max_cases {A} (lt : A -> A -> bool) a t : py_max lt a t = a \/ py_max lt a t = t.
Proof. unfold py_max. destruct (lt a t); auto. Qed.

(** ** The stable sort *)

Lemma sorted_impl {A} (R R' : A -> A -> Prop) l :
  (forall a b, R a b -> R' a b) -> Sorted R l -> Sorted R' l.
Proof.
  intros H. induction 1 as [|a l Hs IH Hhd]; constructor; [exact IH|].
  destruct Hhd; constructor. now apply H.
Qed.

(** Appending an element above every element keeps a list sorted. *)
Lemma sorted_snoc {A} (R : A -> A -> Prop) l x :
  Sorted R l -> (forall y, In y l -> R y x) -> Sorted R (l ++ [x]).
Proof.
  induction 1 as [|a l Hs IH Hhd]; intro H; simpl; [repeat constructor|].
  constructor; [apply IH; intros y Hy; apply H; now right|].
  destruct Hhd as [|b l' Hab]; simpl; constructor; [apply H; now left|exact Hab].
Qed.

Section SortLemmas.
Context {A : Type} (lt : A -> A -> bool).

Lemma insert_by_perm a l : Permutation (insert_by lt a l) (a :: l).
Proof.
  induction l as [|b l IH]; simpl; [reflexivity|].
  destruct (lt b a); [|reflexivity].
  rewrite IH. apply perm_swap.
Qed.

Lemma sort_by_perm l : Permutation (sort_by lt l) l.
Proof.
  induction l as [|a l IH]; simpl; [reflexivity|].
  rewrite insert_by_perm. now apply perm_skip.
Qed.

Lemma sort_by_length l : length (sort_by lt l) = length l.
Proof. apply Permutation_length, sort_by_perm. Qed.

Lemma In_sort_by x l : In x (sort_by lt l) <-> In x l.
Proof. split; apply Permutation_in; [|symmetry]; apply sort_by_perm. Qed.

(** The order the sort establishes: no element is strictly smaller than
    one before it. *)
Definition le_by (a b : A) : Prop := lt b a = false.

Hypothesis lt_irrefl : forall a, lt a a = false.
Hypothesis lt_trans : forall a b c, lt a b = true -> lt b c = true -> lt a c = true.

Lemma lt_asym a b : lt a b = true -> lt b a = false.
Proof.
  intro H. destruct (lt b a) eqn:E; [|reflexivity].
  rewrite <- (lt_irrefl a). symmetry. eauto.
Qed.

Lemma insert_by_sorted a l :
  Sorted le_by l -> Sorted le_by (insert_by lt a l).
Proof.
  induction 1 as [|b l Hs IH Hhd]; simpl; [repeat constructor|].
  destruct (lt b a) eqn:Eba.
  - constructor; [exact IH|].
    destruct l as [|c l]; simpl.
    + constructor. now apply lt_asym.
    + inversion Hhd; subst.
      destruct (lt c a); constructor; [assumption|now apply lt_asym].
  - repeat constructor; assumption.
Qed.

(** [sort_by] returns a list ordered by the key. *)
Lemma sort_by_sorted l : Sorted le_by (sort_by lt l).
Proof. induction l; simpl; [constructor|now apply insert_by_sorted]. Qed.

(** Negative transitivity: with it, [key_equiv] is an equivalence and
    [lt] is a strict weak order, as the order of Python numbers is. *)
Hypothesis lt_neg_trans :
  forall a b c, lt a b = false -> lt b c = false -> lt a c = false.

Lemma key_equiv_lt_l k a b :
  key_equiv lt k a = true -> lt b a = true -> key_equiv lt k b = false.
Proof.
  unfold key_equiv. rewrite !andb_true_iff, !negb_true_iff.
  intros [Hka Hak] Hba. apply andb_false_iff. right.
  apply negb_false_iff. destruct (lt b k) eqn:E; [reflexivity|].
  rewrite (lt_neg_trans b k a E Hka) in Hba. discriminate.
Qed.

Lemma filter_insert_by k a l :
  key_equiv lt k a = true ->
  filter (key_equiv lt k) (insert_by lt a l) = a :: filter (key_equiv lt k) l.
Proof.
  intro Hk. induction l as [|b l IH]; simpl; rewrite ?Hk; [reflexivity|].
  destruct (lt b a) eqn:Eba; simpl.
  - rewrite (key_equiv_lt_l k a b Hk Eba). exact IH.
  - now rewrite Hk.
Qed.

Lemma filter_insert_by_other k a l :
  key_equiv lt k a = false ->
  filter (key_equiv lt k) (insert_by lt a l) = filter (key_equiv lt k) l.
Proof.
  intro Hk. induction l as [|b l IH]; simpl; rewrite ?Hk; [reflexivity|].
  destruct (lt b a); simpl; rewrite ?Hk; [|reflexivity].
  destruct (key_equiv lt k b); now rewrite IH.
Qed.

(** Stability: elements with the same key keep their relative order. *)
Lemma sort_by_stable k l :
  filter (key_equiv lt k) (sort_by lt l) = filter (key_equiv lt k) l.
Proof.
  induction l as [|a l IH]; simpl; [reflexivity|].
  destruct (key_equiv lt k a) eqn:Hk.
  - rewrite filter_insert_by by exact Hk. now f_equal.
  - rewrite filter_insert_by_other by exact Hk. exact IH.
Qed.

Lemma le_by_trans a b c : le_by a b -> le_by b c -> le_by a c.
Proof. unfold le_by. intros H1 H2. exact (lt_neg_trans c b a H2 H1). Qed.

Lemma sorted_strongly l : Sorted le_by l -> StronglySorted le_by l.
Proof. apply Sorted_StronglySorted. exact le_by_trans. Qed.

Lemma insert_by_filter (p : A -> bool) a l :
  Sorted le_by l ->
  filter p (insert_by lt a l) =
  if p a then insert_by lt a (filter p l) else filter p l.
Proof.
  intro Hs. apply sorted_strongly in Hs.
  induction Hs as [|b l Hs IH Hall]; [simpl; now destruct (p a)|].
  destruct (lt b a) eqn:Eba.
  - simpl. rewrite Eba. destruct (p b) eqn:Epb; cbn [filter]; rewrite Epb, IH;
      [|reflexivity].
    destruct (p a); simpl; rewrite ?Eba; reflexivity.
  - assert (Hfront : insert_by lt a (filter p (b :: l)) = a :: filter p (b :: l)).
    { destruct (filter p (b :: l)) as [|c m] eqn:Ef; [reflexivity|].
      assert (Hin : In c (b :: l)) by (eapply filter_In; rewrite Ef; left; reflexivity).
      assert (Hc : lt c a = false).
      { destruct Hin as [<-|Hin]; [exact Eba|].
        apply (lt_neg_trans c b a); [|exact Eba].
        eapply Forall_forall in Hall; [exact Hall|exact Hin]. }
      simpl. now rewrite Hc. }
    replace (insert_by lt a (b :: l)) with (a :: b :: l) by (simpl; now rewrite Eba).
    change (filter p (a :: b :: l)) with
      (if p a then a :: filter p (b :: l) else filter p (b :: l)).
    destruct (p a); [now rewrite Hfront|reflexivity].
Qed.

(** Sorting a sorted list leaves it unchanged. *)
Lemma sort_by_sorted_id l : Sorted le_by l -> sort_by lt l = l.
Proof.
  induction 1 as [|a l Hs IH Hhd]; simpl; [reflexivity|]. rewrite IH.
  destruct Hhd as [|b l Hb]; simpl; [reflexivity|]. now rewrite Hb.
Qed.

(** A stable sort commutes with [filter]. *)
Lemma filter_sort_by (p : A -> bool) l :
  filter p (sort_by lt l) = sort_by lt (filter p l).
Proof.
  induction l as [|a l IH]; simpl; [reflexivity|].
  rewrite insert_by_filter by apply sort_by_sorted.
  destruct (p a); simpl; now rewrite IH.
Qed.

Lemma key_equiv_refl a : key_equiv lt a a = true.
Proof. unfold key_equiv. now rewrite lt_irrefl. Qed.

Lemma key_equiv_sym a b : key_equiv lt a b = key_equiv lt b a.
Proof. unfold key_equiv. apply andb_comm. Qed.

(** Two ordered lists that agree on every class of equivalent keys are
    equal: a stable sort's result is determined. *)
Lemma sorted_stable_unique l1 : forall l2,
  Sorted le_by l1 -> Sorted le_by l2 ->
  (forall k, filter (key_equiv lt k) l1 = filter (key_equiv lt k) l2) -> l1 = l2.
Proof.
  induction l1 as [|a r1 IH]; intros [|b r2] H1 H2 Hf; try reflexivity.
  - specialize (Hf b). simpl in Hf. rewrite key_equiv_refl in Hf. discriminate.
  - specialize (Hf a). simpl in Hf. rewrite key_equiv_refl in Hf. discriminate.
  - apply sorted_strongly in H1 as H1s. apply sorted_strongly in H2 as H2s.
    inversion H1s as [|? ? _ Ha]; inversion H2s as [|? ? _ Hb]; subst.
    assert (Hab : a = b).
    { destruct (key_equiv lt a b) eqn:Eab.
      - pose proof (Hf a) as Ha'. simpl in Ha'. rewrite key_equiv_refl, Eab in Ha'.
        now injection Ha'.
      - exfalso. pose proof (Hf a) as Ha'. pose proof (Hf b) as Hb'. simpl in Ha', Hb'.
        rewrite key_equiv_refl, Eab in Ha'. rewrite key_equiv_refl, key_equiv_sym, Eab in Hb'.
        assert (Hin_a : In a r2) by (apply (filter_In (key_equiv lt a)); rewrite <- Ha'; left; reflexivity).
        assert (Hin_b : In b r1) by (apply (filter_In (key_equiv lt b)); rewrite Hb'; left; reflexivity).
        eapply Forall_forall in Hin_a; [|exact Hb]. eapply Forall_forall in Hin_b; [|exact Ha].
        unfold le_by in *. unfold key_equiv in Eab. rewrite Hin_a, Hin_b in Eab. discriminate. }
    subst b. f_equal. apply IH.
    + now apply Sorted_inv in H1 as [? _].
    + now apply Sorted_inv in H2 as [? _].
    + intro k. specialize (Hf k). simpl in Hf. destruct (key_equiv lt k a); [now injection Hf|exact Hf].
Qed.

(** Refinement: every stable sort of [l] (an ordered list that keeps
    the order of equivalent elements) is [sort_by lt l]. In particular
    CPython's TimSort gives the result [sort_by] computes. *)
Lemma sort_by_unique l l' :
  Sorted le_by l' ->
  (forall k, filter (key_equiv lt k) l' = filter (key_equiv lt k) l) ->
  l' = sort_by lt l.
Proof.
  intros Hs Hf. apply sorted_stable_unique; [exact Hs|apply sort_by_sorted|].
  intro k. rewrite Hf. symmetry. apply sort_by_stable.
Qed.

End SortLemmas.

#[export] Hint Resolve sort_by_perm insert_by_perm sort_by_sorted : magic.
#[export] Hint Rewrite @sort_by_length : magic_rw.

(** ** [numpy.argmin] *)

(** [i] is the first index of the least element [m] of [l]. *)
Definition first_min (l : list Q) (i : nat) (m : Q) : Prop :=
  nth_error l i = Some m /\
  (forall j d, nth_error l j = Some d -> m <= d) /\
  (forall j d, (j < i)%nat -> nth_error l j = Some d -> m < d).

Lemma nth_error_snoc {A} (l : list A) (x : A) j d :
  nth_error (l ++ [x]) j = Some d ->
  nth_error l j = Some d \/ (j = length l /\ d = x).
Proof.
  intro H. destruct (Nat.lt_ge_cases j (length l)) as [Hj|Hj].
  - left. now rewrite nth_error_app1 in H.
  - rewrite nth_error_app2 in H by exact Hj.
    destruct (j - length l)%nat as [|k] eqn:E; simpl in H.
    + right. split; [lia|congruence].
    + destruct k; discriminate.
Qed.

Lemma argmin_from_spec l : forall pre best m,
  first_min pre best m ->
  exists m', first_min (pre ++ l) (argmin_from l (length pre) best m) m'.
Proof.
  induction l as [|d l IH]; intros pre best m [Hb [Hle Hlt]]; simpl.
  - exists m. rewrite app_nil_r. repeat split; assumption.
  - replace (pre ++ d :: l) with ((pre ++ [d]) ++ l)
      by (rewrite <- app_assoc; reflexivity).
    destruct (qltb d m) eqn:Edm.
    + apply qltb_iff in Edm.
      replace (S (length pre)) with (length (pre ++ [d]))
        by (rewrite length_app; simpl; lia).
      apply IH. repeat split.
      * rewrite nth_error_app2, Nat.sub_diag by lia. reflexivity.
      * intros j e Hj. apply nth_error_snoc in Hj as [Hj|[_ ->]].
        -- apply Qlt_le_weak, (Qlt_le_trans _ m); eauto.
        -- apply Qle_refl.
      * intros j e Hj Hje. apply nth_error_snoc in Hje as [Hje|[? _]]; [|lia].
        apply (Qlt_le_trans _ m); eauto.
    + apply qltb_false_iff in Edm.
      replace (S (length pre)) with (length (pre ++ [d]))
        by (rewrite length_app; simpl; lia).
      apply IH. repeat split.
      * rewrite nth_error_app1; [exact Hb|apply nth_error_Some; congruence].
      * intros j e Hj. apply nth_error_snoc in Hj as [Hj|[_ ->]]; eauto.
      * intros j e Hj Hje. apply nth_error_snoc in Hje as [Hje|[? _]]; eauto.
        assert (best < length pre)%nat by (apply nth_error_Some; congruence). lia.
Qed.

(** [argmin] of a non-empty list is its first least element. *)
Lemma argmin_spec l i : argmin l = Some i -> exists m, first_min l i m.
Proof.
  destruct l as [|d l]; simpl; [discriminate|]. intro H. injection H as <-.
  apply (argmin_from_spec l [d] 0 d). repeat split.
  - intros [|j] e Hj; simpl in Hj; [injection Hj as ->; apply Qle_refl|destruct j; discriminate].
  - intros j e Hj. lia.
Qed.

Lemma argmin_Some l : l <> [] -> exists i, argmin l = Some i.
Proof. destruct l; [congruence|simpl; eauto]. Qed.
