(* ===== verification/Sampler.v ===== *)
(** * The frame sampler

    src/face_detection.py, line 39 ([frame_skip = max(1, int(fps * 0.5))])
    and the skip test of the main loop (lines 49-52). The closed form
    below shows which frame indices the loop analyses. *)

From Stdlib Require Import ZArith QArith Qround Lqa List Bool Lia.
From S2P Require Import Prelude.
Import ListNotations.
Local Open Scope nat_scope.

(** Python's [int()] of a float truncates toward zero. *)
Definition py_int (q : Q) : Z := Z.quot (Qnum q) (Zpos (Qden q)).

(** Line 39. [fps * 0.5] is exact in binary64, so [int(fps * 0.5)] is
    the truncation of the exact half. *)
Definition frame_skip (fps : Q) : nat := Z.to_nat (Z.max 1 (py_int (fps * (1 # 2))%Q)).

(** Line 50: a frame is analysed when [frame_count % frame_skip == 0]. *)
Definition is_sampled (skip frame_count : nat) : bool := Nat.eqb (frame_count mod skip) 0.

(** The indices the loop analyses among the first [n] frames. *)
Definition sampled_frames (skip n : nat) : list nat := filter (is_sampled skip) (seq 0 n).

(** [ceil(n / skip)]. *)
Definition ceil_div (n skip : nat) : nat := (n + (skip - 1)) / skip.

(** The rule the specification states, [max(1, round(fps * interval))],
    rounding to nearest (ties upward; no tie occurs below). *)
Definition spec_frame_skip (fps : Q) : nat :=
  Z.to_nat (Z.max 1 (Qround.Qfloor (fps * (1 # 2) + (1 # 2))%Q)).

Lemma frame_skip_pos fps : (1 <= frame_skip fps)%nat.
Proof. unfold frame_skip. lia. Qed.

Lemma ceil_div_S n s :
  (1 <= s)%nat ->
  ceil_div (S n) s = (ceil_div n s + if is_sampled s n then 1 else 0)%nat.
Proof.
  intro Hs. unfold ceil_div, is_sampled.
  pose proof (Nat.div_mod n s ltac:(lia)) as Hn. pose proof (Nat.mod_upper_bound n s ltac:(lia)).
  set (q := n / s) in *. set (r := n mod s) in *.
  assert (H1 : (S n + (s - 1)) / s = S q).
  { symmetry. apply (Nat.div_unique _ _ _ r); lia. }
  rewrite H1. destruct (Nat.eqb_spec r 0) as [Hr|Hr].
  - assert (H2 : (n + (s - 1)) / s = q) by (symmetry; apply (Nat.div_unique _ _ _ (s - 1)); lia). lia.
  - assert (H2 : (n + (s - 1)) / s = S q) by (symmetry; apply (Nat.div_unique _ _ _ (r - 1)); lia). lia.
Qed.

Lemma is_sampled_mul s k : (1 <= s)%nat -> is_sampled s (k * s) = true.
Proof. intro Hs. unfold is_sampled. rewrite Nat.Div0.mod_mul. reflexivity. Qed.

Lemma sampled_index s n : (1 <= s)%nat -> is_sampled s n = true -> n = ceil_div n s * s.
Proof.
  intros Hs H. unfold is_sampled, ceil_div in *. apply Nat.eqb_eq in H.
  pose proof (Nat.div_mod n s ltac:(lia)) as Hn.
  assert (Hq : (n + (s - 1)) / s = n / s) by (symmetry; apply (Nat.div_unique _ _ _ (s - 1)); lia).
  rewrite Hq. lia.
Qed.

(** How many frames the loop analyses: [ceil(n / skip)]. *)
Lemma length_sampled_frames skip n :
  (1 <= skip) -> List.length (sampled_frames skip n) = ceil_div n skip.
Proof.
  intro Hs. induction n as [|n IH].
  - unfold ceil_div. simpl. rewrite Nat.div_small by lia. reflexivity.
  - unfold sampled_frames. rewrite seq_S, filter_app, length_app.
    fold (sampled_frames skip n). rewrite IH, ceil_div_S by exact Hs.
    simpl. now destruct (is_sampled skip n).
Qed.

(** C12. The sampled frames are exactly [0, skip, 2 skip, ...] below [n]:
    [ceil(n / skip)] frames, frame 0 first whenever the video has a
    frame, and never two frames closer than [skip]. *)
Theorem sampled_frames_closed_form skip n :
  (1 <= skip)%nat ->
  sampled_frames skip n = map (fun k => k * skip)%nat (seq 0 (ceil_div n skip)).
Proof.
  intro Hs. induction n as [|n IH].
  - unfold ceil_div. simpl. rewrite Nat.div_small by lia. reflexivity.
  - unfold sampled_frames. rewrite seq_S, filter_app. fold (sampled_frames skip n).
    rewrite IH, ceil_div_S by exact Hs. simpl.
    destruct (is_sampled skip n) eqn:E; simpl.
    + rewrite Nat.add_1_r, seq_S, map_app. simpl. do 2 f_equal.
      now apply sampled_index.
    + now rewrite app_nil_r, Nat.add_0_r.
Qed.

Lemma sampled_frames_closed_form_witness :
  (1 <= 5) /\ sampled_frames 5 12 = map (fun k => k * 5) (seq 0 (ceil_div 12 5)).
Proof. split; [lia|apply sampled_frames_closed_form; lia]. Defined.

Lemma Qfloor_unique (z : Z) (q : Q) :
  (inject_Z z <= q)%Q -> (q < inject_Z (z + 1))%Q -> Qfloor q = z.
Proof.
  intros H1 H2. apply Z.le_antisymm.
  - assert (H : (inject_Z (Qfloor q) < inject_Z (z + 1))%Q)
      by (eapply Qle_lt_trans; [apply Qfloor_le|exact H2]).
    rewrite <- Zlt_Qlt in H. lia.
  - rewrite <- (Qfloor_Z z). apply Qfloor_resp_le. exact H1.
Qed.

(** On a non-negative value, [int()] truncates to the floor. *)
Lemma py_int_floor (q : Q) : (0 <= q)%Q -> py_int q = Qfloor q.
Proof.
  destruct q as [n d]. unfold py_int, Qle, Qfloor. simpl. intro H.
  apply Z.quot_div_nonneg; lia.
Qed.

(** C36. The code truncates [fps * 0.5] where the specification rounds it
    to the nearest integer. For any frame rate, [frame_skip] is
    [max(1, floor(fps / 2))]; when the fractional part of [fps / 2] is
    below one half the two agree, and when it is above one half (and
    [fps / 2 >= 1]) the code samples one frame more often than the
    specification (29.97 fps: every 14th frame instead of every 15th). *)
Theorem frame_skip_truncates fps :
  (0 <= fps)%Q ->
  frame_skip fps = Z.to_nat (Z.max 1 (Qfloor (fps * (1 # 2)))) /\
  ((fps * (1 # 2) - inject_Z (Qfloor (fps * (1 # 2))) < 1 # 2)%Q ->
   spec_frame_skip fps = frame_skip fps) /\
  ((1 <= Qfloor (fps * (1 # 2)))%Z ->
   (1 # 2 < fps * (1 # 2) - inject_Z (Qfloor (fps * (1 # 2))))%Q ->
   spec_frame_skip fps = S (frame_skip fps)).
Proof.
  intro Hf. assert (Hh : (0 <= fps * (1 # 2))%Q).
  { apply (Qmult_le_0_compat fps (1 # 2)); [exact Hf|discriminate]. }
  unfold frame_skip, spec_frame_skip. rewrite (py_int_floor _ Hh).
  set (h := (fps * (1 # 2))%Q) in *. set (f := Qfloor h).
  pose proof (Qfloor_le h) as Hle. pose proof (Qlt_floor h) as Hlt. fold f in Hle, Hlt.
  assert (Hf0 : (0 <= f)%Z).
  { rewrite <- (Qfloor_Z 0). apply Qfloor_resp_le. exact Hh. }
  rewrite inject_Z_plus in Hlt. change (inject_Z 1) with 1%Q in Hlt.
  split; [reflexivity|split].
  - intro Hr. rewrite (Qfloor_unique f); [reflexivity|lra|rewrite inject_Z_plus; change (inject_Z 1) with 1%Q; lra].
  - intros H1 Hr. rewrite (Qfloor_unique (f + 1)); [lia|rewrite inject_Z_plus; change (inject_Z 1) with 1%Q; lra|].
    rewrite !inject_Z_plus. change (inject_Z 1) with 1%Q. lra.
Qed.

Lemma frame_skip_truncates_witness :
  (0 <= 2997 # 100)%Q /\ frame_skip (2997 # 100) = 14 /\ spec_frame_skip (2997 # 100) = 15.
Proof.
  assert (H : (0 <= 2997 # 100)%Q) by discriminate.
  destruct (frame_skip_truncates _ H) as [_ [_ Hup]].
  split; [exact H|]. split; [vm_compute; reflexivity|].
  rewrite Hup; [vm_compute; reflexivity|vm_compute; discriminate|vm_compute; reflexivity].
Defined.
