(* ===== verification/Confidence.v ===== *)
(** * The confidence score ([calculate_face_confidence])

    src/face_detection.py, lines 166-186, on IEEE binary64 floats (the
    kernel's primitive [float]). The box coordinates are numpy int32 and
    the frame shape Python ints, so [w * h] is an [int32] product that
    wraps ([int32_wrap]) while [frame_width * frame_height] is exact. [/]
    on them is numpy's true division
    (float64 of each operand, then a correctly rounded quotient). [** 2]
    on a float64 is a product, and [np.sqrt] is [PrimFloat.sqrt]. The
    clamp [min(100, max(0, c))] uses CPython's comparisons. [max] keeps 0
    unless [c > 0], so a NaN score is clamped to 0. The exact binary64
    facts the full-frame theorem needs ([x / x = 1], [0 / x = 0], exact
    conversion below 2^53) are proved by computing with the SpecFloat
    rounding that specifies the primitive operations. *)

From Stdlib Require Import ZArith List Floats Lia.
From S2P Require Import Prelude.

Local Open Scope float_scope.
(** The literals [0.7] and [0.3] denote, as in Python, the nearest
    binary64 values. *)
Set Warnings "-inexact-float".

(** Lines 166-186. [frame_shape] is [frame.shape[:2]], (height, width). *)
Definition calculate_face_confidence (x y w h : Z) (frame_shape : Z * Z) : float :=
  let '(frame_height, frame_width) := frame_shape in
  let size_factor := float_of_Z (int32_wrap (w * h)) / float_of_Z (frame_width * frame_height) in
  let center_x := (x + Z.div w 2)%Z in
  let center_y := (y + Z.div h 2)%Z in
  let dx := float_of_Z (center_x - Z.div frame_width 2) / float_of_Z frame_width in
  let dy := float_of_Z (center_y - Z.div frame_height 2) / float_of_Z frame_height in
  let distance_from_center := PrimFloat.sqrt (dx * dx + dy * dy) in
  let position_factor := 1 - distance_from_center in
  let confidence := (size_factor * 0.7 + position_factor * 0.3) * 100 in
  py_min PrimFloat.ltb 100 (py_max PrimFloat.ltb 0 confidence).

(** [<] implies [<=] on binary64 floats (NaN compares false to both). *)
Lemma float_ltb_leb a b : (a <? b) = true -> (a <=? b) = true.
Proof.
  rewrite FloatAxioms.ltb_spec, FloatAxioms.leb_spec.
  unfold SpecFloat.SFltb, SpecFloat.SFleb.
  destruct (SpecFloat.SFcompare _ _) as [[]|]; easy.
Qed.

(** The clamp [min(100, max(0, c))] lands in [0, 100], NaN included. *)
Lemma clamp_range c :
  (0 <=? py_min PrimFloat.ltb 100 (py_max PrimFloat.ltb 0 c)) = true /\
  (py_min PrimFloat.ltb 100 (py_max PrimFloat.ltb 0 c) <=? 100) = true.
Proof.
  unfold py_min, py_max. destruct (0 <? c) eqn:Ec.
  - destruct (c <? 100) eqn:Ec'; split; auto using float_ltb_leb.
  - destruct (0 <? 100); split; reflexivity.
Qed.

(** C11. The score is always within [0, 100], for every box and frame,
    including the NaN a degenerate frame would produce. *)
Theorem confidence_bounds x y w h frame_shape :
  (0 <=? calculate_face_confidence x y w h frame_shape) = true /\
  (calculate_face_confidence x y w h frame_shape <=? 100) = true.
Proof.
  unfold calculate_face_confidence. destruct frame_shape as [fh fw]. apply clamp_range.
Qed.

(** ** Exact binary64 facts

    Below 2^53 an integer converts to a finite float, a finite float
    divided by itself is exactly 1, and zero divided by a positive finite
    float is zero. The proofs compute with the SpecFloat rounding that
    the primitive operations are specified by. *)

Section Binary64.
Import SpecFloat.
Lemma digits2_pos_size p : digits2_pos p = Pos.size p.
Proof. induction p; simpl; congruence. Qed.

Lemma digits2_iter_xO p n : digits2_pos (Pos.iter xO p n) = (digits2_pos p + n)%positive.
Proof.
  induction n as [|n IH] using Pos.peano_ind.
  - simpl. now rewrite Pos.add_1_r.
  - rewrite Pos.iter_succ. simpl. now rewrite IH, Pos.add_succ_r.
Qed.

Lemma fexp_eq e : (-1021 <= e)%Z -> fexp prec emax e = (e - 53)%Z.
Proof. intro H. unfold fexp, emin, prec, emax. lia. Qed.

Lemma round_aux_exact mz ez :
  Zdigits2 (Zpos mz) = 53%Z -> (-1074 <= ez <= 971)%Z ->
  binary_round_aux prec emax false (Zpos mz) ez loc_Exact = S754_finite false mz ez.
Proof.
  intros Hd He. unfold binary_round_aux, shr_fexp. rewrite Hd.
  rewrite fexp_eq by lia. replace (53 + ez - 53 - ez)%Z with 0%Z by lia.
  cbn [shr shr_record_of_loc shr_m loc_of_shr_record round_nearest_even].
  rewrite Hd, fexp_eq by lia. replace (53 + ez - 53 - ez)%Z with 0%Z by lia.
  cbn [shr shr_m]. replace (Z.leb ez (emax - prec)) with true; [reflexivity|].
  symmetry. apply Z.leb_le. unfold emax, prec. lia.
Qed.

Lemma size_le_53 p : (Zpos p < 2^53)%Z -> (Zpos (Pos.size p) <= 53)%Z.
Proof.
  intro Hp. pose proof (Pos.size_le p) as H.
  assert (H' : (2 ^ Zpos (Pos.size p) <= 2 * Zpos p)%Z).
  { rewrite <- Pos2Z.inj_pow. change (2 * Zpos p)%Z with (Zpos p~0). apply Pos2Z.pos_le_pos, H. }
  destruct (Z.le_gt_cases (Zpos (Pos.size p)) 53) as [|Hgt]; [assumption|].
  assert (2 ^ 54 <= 2 ^ Zpos (Pos.size p))%Z by (apply Z.pow_le_mono_r; lia). lia.
Qed.

Lemma binary_round_small p :
  (Zpos p < 2^53)%Z -> exists m e, binary_round prec emax false p 0 = S754_finite false m e.
Proof.
  intro Hp. pose proof (size_le_53 p Hp) as Hs. unfold binary_round, shl_align.
  rewrite digits2_pos_size, fexp_eq by lia. rewrite Z.sub_0_r.
  destruct (Zpos (Pos.size p) + 0 - 53)%Z as [|k|k] eqn:Ek.
  - exists p, 0%Z. apply round_aux_exact; [|lia]. simpl. rewrite digits2_pos_size. f_equal. lia.
  - lia.
  - exists (Pos.iter xO p k), (Zneg k). apply round_aux_exact; [|lia].
    simpl. rewrite digits2_iter_xO, digits2_pos_size, Pos2Z.inj_add. lia.
Qed.
Lemma SFdiv_self s m e :
  SF64div (S754_finite s m e) (S754_finite s m e) = S754_finite false (2^52) (-52).
Proof.
  unfold SF64div, SFdiv, SFdiv_core_binary. cbv zeta.
  rewrite !Z.sub_diag.
  change (Z.min (fexp prec emax 0) 0) with (-53)%Z. change (0 - -53)%Z with 53%Z. cbv iota beta.
  change (IntDef.Z.div_eucl (IntDef.Z.shiftl (Z.pos m) 53) (Z.pos m))
    with (Z.div_eucl (Z.shiftl (Z.pos m) 53) (Z.pos m)).
  replace (Z.div_eucl (Z.shiftl (Z.pos m) 53) (Z.pos m)) with ((2^53)%Z, 0%Z).
  2: { rewrite Z.shiftl_mul_pow2 by lia.
       assert (H : forall a b, Z.div_eucl a b = (Z.div a b, Z.modulo a b))
         by (intros; unfold Z.div, Z.modulo; destruct (Z.div_eucl a b); reflexivity).
       rewrite H, Z.mul_comm, Z.div_mul, Z.mod_mul by lia. reflexivity. }
  replace (new_location (Z.pos m) 0) with loc_Exact
    by (unfold new_location; destruct (Z.even _); reflexivity).
  destruct s; reflexivity.
Qed.

Lemma div_self x s m e : Prim2SF x = S754_finite s m e -> (x / x)%float = 1%float.
Proof.
  intro H. apply FloatAxioms.Prim2SF_inj. rewrite FloatAxioms.div_spec, H, SFdiv_self. reflexivity.
Qed.

Lemma zero_div x m e : Prim2SF x = S754_finite false m e -> (0 / x)%float = 0%float.
Proof.
  intro H. apply FloatAxioms.Prim2SF_inj. rewrite FloatAxioms.div_spec, H. reflexivity.
Qed.

Lemma float_of_Z_finite z :
  (0 < z < 2^53)%Z -> exists m e, Prim2SF (float_of_Z z) = S754_finite false m e.
Proof.
  intro Hz. unfold float_of_Z. replace (z <? 0)%Z with false by (symmetry; apply Z.ltb_ge; lia).
  rewrite FloatAxioms.of_uint63_spec, Uint63.of_Z_spec, Z.mod_small
    by (split; [lia|]; apply (Z.lt_trans _ (2^53)); [lia|reflexivity]).
  destruct z as [|p|p]; try lia. apply binary_round_small. lia.
Qed.

End Binary64.

(** C37. A box that covers the whole frame scores exactly 100.0 for every
    frame of fewer than 2^31 pixels, where the [int32] product [w * h]
    does not wrap: its size factor is [float(w*h) / float(w*h) = 1.0] and
    its centre offsets are [0 / width = 0.0]. *)
Theorem confidence_full_frame frame_width frame_height :
  (0 < frame_width)%Z -> (0 < frame_height)%Z -> (frame_width * frame_height < 2^31)%Z ->
  calculate_face_confidence 0 0 frame_width frame_height (frame_height, frame_width) = 100.
Proof.
  intros Hw Hh Hwh. unfold calculate_face_confidence.
  rewrite int32_wrap_small by nia.
  destruct (float_of_Z_finite (frame_width * frame_height) ltac:(nia)) as (m & e & Hs).
  destruct (float_of_Z_finite frame_width ltac:(nia)) as (mw & ew & Hfw).
  destruct (float_of_Z_finite frame_height ltac:(nia)) as (mh & eh & Hfh).
  rewrite (div_self _ _ _ _ Hs), !Z.add_0_l, !Z.sub_diag.
  change (float_of_Z 0) with 0%float. rewrite (zero_div _ _ _ Hfw), (zero_div _ _ _ Hfh).
  vm_compute. reflexivity.
Qed.

Lemma confidence_full_frame_witness :
  (0 < 1920)%Z /\ (0 < 1080)%Z /\ (1920 * 1080 < 2^31)%Z /\
  calculate_face_confidence 0 0 1920 1080 (1080, 1920)%Z = 100.
Proof.
  split; [lia|]. split; [lia|]. split; [lia|].
  apply confidence_full_frame; lia.
Defined.

(** Past 2^31 pixels the [int32] product wraps: a 50000x50000 box
    covering a 50000x50000 frame has [w * h] = -1794967296 in the code,
    a negative size factor, and scores 0. *)
Example confidence_full_frame_overflow :
  int32_wrap (50000 * 50000) = (-1794967296)%Z /\
  calculate_face_confidence 0 0 50000 50000 (50000, 50000)%Z = 0.
Proof. split; vm_compute; reflexivity. Qed.
