(* ===== verification/Identity.v ===== *)
(** * Identity resolution ([identify_speaker] and the speaker registry)

    [identify_speaker] (src/face_detection.py, lines 146-164) and the
    registry update of the main loop (lines 82-88). The registry is the
    state the loop threads through: [known_face_encodings],
    [known_face_names] and [speaker_id_counter]. The face distance of the
    [face_recognition] library is a parameter. [face_distance] and
    [compare_faces] are written as that library computes them from it. *)

From Stdlib Require Import ZArith QArith List String Lia.
From Stdlib Require Import DecimalString DecimalNat Qabs.
From S2P Require Import Prelude.
Import ListNotations.

(** [f"speaker_{n}"]. *)
Definition speaker_name (n : nat) : string :=
  ("speaker_" ++ NilEmpty.string_of_uint (Nat.to_uint n))%string.

(** The [tolerance=0.6] argument of [compare_faces]. *)
Definition tolerance : Q := 6 # 10.

Section Resolver.
Context {Emb : Type} (distance : Emb -> Emb -> Q).

(** [face_recognition.face_distance(known, e)]: the distance of [e] to
    each known encoding, in registry order. *)
Definition face_distance (known : list Emb) (e : Emb) : list Q :=
  map (fun k => distance k e) known.

(** [face_recognition.compare_faces(known, e, tolerance)]: which known
    encodings are within the tolerance ([distance <= tolerance]). *)
Definition compare_faces (known : list Emb) (e : Emb) (tol : Q) : list bool :=
  map (fun d => Qle_bool d tol) (face_distance known e).

(** [identify_speaker]. [None] is an exception ([IndexError] or numpy's
    [ValueError]); the registry invariant rules it out. *)
Definition identify_speaker (face_encoding : Emb) (known_encodings : list Emb)
    (known_names : list string) (next_id : nat) : option string :=
  match known_encodings with
  | [] => Some (speaker_name next_id)
  | _ =>
      let matches := compare_faces known_encodings face_encoding tolerance in
      let distances := face_distance known_encodings face_encoding in
      if existsb (fun b => b) matches then
        match argmin distances with
        | None => None
        | Some best_match_index =>
            match nth_error matches best_match_index with
            | None => None
            | Some true => nth_error known_names best_match_index
            | Some false => Some (speaker_name next_id)
            end
        end
      else Some (speaker_name next_id)
  end.

(** The registry of known speakers, threaded through the main loop. *)
Record registry := mk_registry {
  known_face_encodings : list Emb;
  known_face_names : list string;
  speaker_id_counter : nat
}.

(** Lines 34-36. *)
Definition registry_init : registry := mk_registry [] [] 1.

(** Lines 85-88: append the new speaker and bump the counter. *)
Definition register (r : registry) (e : Emb) (sid : string) : registry :=
  mk_registry (known_face_encodings r ++ [e]) (known_face_names r ++ [sid])
    (S (speaker_id_counter r)).

(** Lines 82-88: resolve an encoding and register a new speaker. *)
Definition resolve (r : registry) (e : Emb) : option (string * registry) :=
  match identify_speaker e (known_face_encodings r) (known_face_names r)
          (speaker_id_counter r) with
  | None => None
  | Some sid =>
      if String.eqb sid (speaker_name (speaker_id_counter r))
      then Some (sid, register r e sid)
      else Some (sid, r)
  end.

(** The registry invariant: one name per encoding, the names are
    [speaker_1 .. speaker_n] in registration order, and the counter is
    [n + 1]. *)
Definition registry_wf (r : registry) : Prop :=
  List.length (known_face_encodings r) = List.length (known_face_names r) /\
  known_face_names r = map speaker_name (seq 1 (List.length (known_face_names r))) /\
  speaker_id_counter r = S (List.length (known_face_names r)).

(** The abstract contract of the resolver: nearest neighbour within the
    tolerance, the first registered entry winning ties, otherwise a new
    identity with the next number. *)
Inductive resolves (r : registry) (e : Emb) : string -> registry -> Prop :=
| resolves_match i m :
    first_min (face_distance (known_face_encodings r) e) i m ->
    m <= tolerance ->
    resolves r e (speaker_name (S i)) r
| resolves_new :
    (forall k, In k (known_face_encodings r) -> tolerance < distance k e) ->
    resolves r e (speaker_name (speaker_id_counter r))
      (register r e (speaker_name (speaker_id_counter r))).

End Resolver.

Arguments registry Emb : clear implicits.

(** [resolve] leaves the registry as it is or appends one entry. *)
Lemma resolve_cases {Emb} (distance : Emb -> Emb -> Q) r e sid r' :
  resolve distance r e = Some (sid, r') -> r' = r \/ r' = register r e sid.
Proof.
  unfold resolve. destruct (identify_speaker _ _ _ _ _) as [s|]; [|discriminate].
  destruct (String.eqb s _); intro H; injection H as <- <-; auto.
Qed.


(** ** Speaker names *)

Lemma speaker_name_inj n n' : speaker_name n = speaker_name n' -> n = n'.
Proof.
  unfold speaker_name. simpl. intro H. repeat (injection H as H).
  apply (f_equal NilEmpty.uint_of_string) in H. rewrite !NilEmpty.usu in H.
  injection H as H. now apply Unsigned.to_uint_inj.
Qed.

Lemma speaker_name_eqb n n' :
  String.eqb (speaker_name n) (speaker_name n') = Nat.eqb n n'.
Proof.
  destruct (String.eqb_spec (speaker_name n) (speaker_name n')) as [H|H];
    destruct (Nat.eqb_spec n n') as [H'|H']; subst; try reflexivity;
    exfalso; [apply H', speaker_name_inj, H|now apply H].
Qed.

(** ** Lemmas on [first_min] and the registry *)

Lemma first_min_unique l i j m m' :
  first_min l i m -> first_min l j m' -> i = j /\ m = m'.
Proof.
  intros [Hi [Hile Hilt]] [Hj [Hjle Hjlt]].
  destruct (Nat.lt_total i j) as [Hij|[Hij|Hij]].
  - exfalso. apply (Qlt_not_le m' m); eauto.
  - subst. split; congruence.
  - exfalso. apply (Qlt_not_le m m'); eauto.
Qed.

Lemma first_min_length l i m : first_min l i m -> (i < List.length l)%nat.
Proof. intros [H _]. apply nth_error_Some. congruence. Qed.

Section ResolverLemmas.
Context {Emb : Type} (distance : Emb -> Emb -> Q).
Implicit Types (r : registry Emb) (e : Emb).

Lemma length_face_distance known e :
  List.length (face_distance distance known e) = List.length known.
Proof. apply length_map. Qed.

Lemma nth_error_names r i :
  registry_wf r -> (i < List.length (known_face_names r))%nat ->
  nth_error (known_face_names r) i = Some (speaker_name (S i)).
Proof.
  intros [_ [Hn _]] Hi. rewrite Hn, nth_error_map, nth_error_seq.
  apply Nat.ltb_lt in Hi. rewrite Hi. reflexivity.
Qed.

(** A match within the tolerance resolves to the first nearest entry. *)
Lemma identify_speaker_match r e i m :
  registry_wf r ->
  first_min (face_distance distance (known_face_encodings r) e) i m ->
  m <= tolerance ->
  identify_speaker distance e (known_face_encodings r) (known_face_names r)
    (speaker_id_counter r) = Some (speaker_name (S i)).
Proof.
  intros Hwf Hmin Htol. pose proof (first_min_length _ _ _ Hmin) as Hlen.
  rewrite length_face_distance in Hlen. pose proof Hmin as [Hi _].
  assert (Hne : face_distance distance (known_face_encodings r) e <> []).
  { intro H. rewrite H in Hi. destruct i; discriminate. }
  destruct (argmin_Some _ Hne) as [j Hj].
  destruct (argmin_spec _ _ Hj) as [m' Hm'].
  destruct (first_min_unique _ _ _ _ _ Hmin Hm') as [<- <-].
  unfold identify_speaker, compare_faces.
  destruct (known_face_encodings r) as [|k ks] eqn:Ek; [simpl in Hlen; lia|].
  rewrite <- Ek in *.
  replace (existsb _ _) with true.
  2: { symmetry. apply existsb_exists. exists true. split; [|reflexivity].
       apply in_map_iff. exists m. split; [now apply Qle_bool_iff|].
       eapply nth_error_In; eassumption. }
  rewrite Hj, nth_error_map, Hi. simpl.
  replace (Qle_bool m tolerance) with true by (symmetry; now apply Qle_bool_iff).
  apply nth_error_names; [exact Hwf|]. destruct Hwf as [Hl _]. lia.
Qed.

(** No entry within the tolerance: the next identity is returned. *)
Lemma identify_speaker_new r e :
  (forall k, In k (known_face_encodings r) -> tolerance < distance k e) ->
  identify_speaker distance e (known_face_encodings r) (known_face_names r)
    (speaker_id_counter r) = Some (speaker_name (speaker_id_counter r)).
Proof.
  intro Hall. unfold identify_speaker, compare_faces, face_distance.
  destruct (known_face_encodings r) as [|k ks]; [reflexivity|].
  replace (existsb _ _) with false; [reflexivity|].
  symmetry. apply not_true_iff_false. rewrite existsb_exists.
  intros [b [Hb ->]]. apply in_map_iff in Hb as [d [Hd Hin]].
  apply in_map_iff in Hin as [k' [<- Hk']].
  apply Qle_bool_iff in Hd. apply (Qlt_not_le _ _ (Hall k' Hk') Hd).
Qed.

(** Either some entry is within the tolerance, and then the first nearest
    one is, or none is. *)
Lemma match_or_new r e :
  (exists i m, first_min (face_distance distance (known_face_encodings r) e) i m /\
               m <= tolerance) \/
  (forall k, In k (known_face_encodings r) -> tolerance < distance k e).
Proof.
  destruct (argmin (face_distance distance (known_face_encodings r) e)) as [i|] eqn:Ha.
  - destruct (argmin_spec _ _ Ha) as [m Hm].
    destruct (Qlt_le_dec tolerance m) as [Hlt|Hle]; [right|left; eauto].
    intros k Hk. apply (Qlt_le_trans _ m); [exact Hlt|].
    destruct Hm as [_ [Hle _]]. apply In_nth_error in Hk as [j Hj].
    apply (Hle j). unfold face_distance. now rewrite nth_error_map, Hj.
  - right. intros k Hk. destruct (known_face_encodings r); [contradiction|discriminate].
Qed.

End ResolverLemmas.

Section ResolverTheorems.
Context {Emb : Type} (distance : Emb -> Emb -> Q).
Implicit Types (r : registry Emb) (e : Emb).

Lemma resolves_functional r e sid r' sid2 r2 :
  resolves distance r e sid r' -> resolves distance r e sid2 r2 -> sid = sid2 /\ r' = r2.
Proof.
  intros H1 H2. destruct H1 as [i m Hm Htol|Hall]; destruct H2 as [j m' Hm' Htol'|Hall'].
  - now destruct (first_min_unique _ _ _ _ _ Hm Hm') as [-> _].
  - exfalso. destruct Hm as [Hi _]. unfold face_distance in Hi.
    rewrite nth_error_map in Hi.
    destruct (nth_error (known_face_encodings r) i) as [k|] eqn:Ek; [|discriminate].
    injection Hi as <-. apply (Qlt_not_le _ _ (Hall' k (nth_error_In _ _ Ek)) Htol).
  - exfalso. destruct Hm' as [Hj _]. unfold face_distance in Hj.
    rewrite nth_error_map in Hj.
    destruct (nth_error (known_face_encodings r) j) as [k|] eqn:Ek; [|discriminate].
    injection Hj as <-. apply (Qlt_not_le _ _ (Hall k (nth_error_In _ _ Ek)) Htol').
  - split; reflexivity.
Qed.

Lemma resolve_total r e :
  registry_wf r -> exists sid r', resolve distance r e = Some (sid, r') /\
                                  resolves distance r e sid r'.
Proof.
  intro Hwf. unfold resolve.
  destruct (match_or_new distance r e) as [[i [m [Hm Htol]]]|Hall].
  - rewrite (identify_speaker_match distance r e i m Hwf Hm Htol).
    pose proof (first_min_length _ _ _ Hm) as Hi.
    rewrite length_face_distance in Hi. destruct Hwf as [Hl [_ Hc]].
    rewrite Hc, speaker_name_eqb.
    replace (Nat.eqb (S i) (S (List.length (known_face_names r)))) with false
      by (symmetry; apply Nat.eqb_neq; lia).
    do 2 eexists. split; [reflexivity|]. eapply resolves_match; eassumption.
  - rewrite (identify_speaker_new distance r e Hall), String.eqb_refl.
    do 2 eexists. split; [reflexivity|]. now apply resolves_new.
Qed.

(** The resolver's result satisfies the contract. *)
Lemma resolve_sound r e sid r' :
  registry_wf r -> resolve distance r e = Some (sid, r') -> resolves distance r e sid r'.
Proof.
  intros Hwf Hres. destruct (resolve_total r e Hwf) as [sid0 [r0 [Hres0 Hspec]]].
  rewrite Hres in Hres0. injection Hres0 as <- <-. exact Hspec.
Qed.

(** C1. Refinement: on a well-formed registry the resolver (lines 82-88
    with [identify_speaker]) never raises, and it returns exactly what the
    nearest-neighbour contract prescribes: the first nearest registered
    speaker when its distance is within the tolerance, and otherwise a
    fresh [speaker_n] that is registered. *)
Theorem resolve_refines r e sid r' :
  registry_wf r ->
  resolve distance r e = Some (sid, r') <-> resolves distance r e sid r'.
Proof.
  intro Hwf. destruct (resolve_total r e Hwf) as [sid0 [r0 [Hres Hspec]]].
  split.
  - apply resolve_sound, Hwf.
  - intro H. rewrite Hres. destruct (resolves_functional _ _ _ _ _ _ Hspec H) as [<- <-].
    reflexivity.
Qed.

Lemma register_wf r e :
  registry_wf r ->
  registry_wf (register r e (speaker_name (speaker_id_counter r))).
Proof.
  intros [Hl [Hn Hc]]. unfold register, registry_wf; simpl.
  rewrite !length_app. simpl. repeat split; [lia| |lia].
  rewrite Hc, Nat.add_1_r, seq_S, map_app, <- Hn. reflexivity.
Qed.

(** The contract keeps the registry well formed. *)
Lemma resolves_wf r e sid r' :
  registry_wf r -> resolves distance r e sid r' -> registry_wf r'.
Proof. intros Hwf []; [exact Hwf|now apply register_wf]. Qed.

(** C2. Invariant: resolving an encoding keeps the registry well formed:
    names and encodings stay aligned, the names stay [speaker_1 ..
    speaker_n] in registration order, and the counter stays [n + 1]. *)
Theorem resolve_wf r e sid r' :
  registry_wf r -> resolve distance r e = Some (sid, r') -> registry_wf r'.
Proof.
  intros Hwf Hres. exact (resolves_wf r e sid r' Hwf (resolve_sound r e sid r' Hwf Hres)).
Qed.

Lemma registry_init_wf : registry_wf (@registry_init Emb).
Proof. repeat split. Qed.

(** A freshly registered encoding that is within the tolerance of itself
    is the first nearest entry of the new registry. *)
Lemma first_min_registered r e :
  (forall k, In k (known_face_encodings r) -> tolerance < distance k e) ->
  distance e e <= tolerance ->
  first_min (face_distance distance (known_face_encodings r ++ [e]) e)
    (List.length (known_face_encodings r)) (distance e e).
Proof.
  intros Hall Hee. unfold face_distance. rewrite map_app. cbn [map].
  assert (Hfar : forall j d, nth_error (map (fun k => distance k e) (known_face_encodings r)) j = Some d ->
                             distance e e < d).
  { intros j d Hj. rewrite nth_error_map in Hj.
    destruct (nth_error _ j) as [k|] eqn:Ek; [|discriminate]. injection Hj as <-.
    apply (Qle_lt_trans _ tolerance); [exact Hee|apply Hall; eapply nth_error_In; eassumption]. }
  split; [|split].
  - rewrite nth_error_app2 by (rewrite length_map; lia). rewrite length_map, Nat.sub_diag. reflexivity.
  - intros j d Hj. apply nth_error_snoc in Hj as [Hj|[_ ->]]; [|apply Qle_refl].
    apply Qlt_le_weak. eapply Hfar; eassumption.
  - intros j d Hj Hd. rewrite nth_error_app1 in Hd by (rewrite length_map; exact Hj).
    eapply Hfar; eassumption.
Qed.

(** C17. Round trip (register, then look up): once an encoding has been
    resolved, resolving it again returns the same speaker and leaves the
    registry as it is, provided the face distance puts an encoding within
    the tolerance of itself (any metric does). A new speaker's reference
    is the encoding itself, so the encoding now matches it. *)
Theorem resolve_again r e sid r' :
  registry_wf r -> distance e e <= tolerance ->
  resolve distance r e = Some (sid, r') -> resolve distance r' e = Some (sid, r').
Proof.
  intros Hwf Hee Hres. pose proof (resolve_sound r e sid r' Hwf Hres) as Hspec.
  pose proof (resolves_wf r e sid r' Hwf Hspec) as Hwf'.
  assert (Hagain : resolves distance r' e sid r').
  { destruct Hspec as [i m Hm Htol|Hall].
    - eapply resolves_match; eassumption.
    - pose proof Hwf as [Hl [_ Hc]].
      replace (speaker_name (speaker_id_counter r))
        with (speaker_name (S (List.length (known_face_encodings r)))) by (rewrite Hc, Hl; reflexivity).
      eapply resolves_match; [|exact Hee]. apply first_min_registered; assumption. }
  destruct (resolve_total r' e Hwf') as [sid0 [r0 [Hres0 Hspec0]]].
  destruct (resolves_functional _ _ _ _ _ _ Hspec0 Hagain) as [<- <-]. exact Hres0.
Qed.

End ResolverTheorems.

#[export] Hint Resolve registry_init_wf register_wf : magic.

Section TwoEncodings.
Context {Emb : Type} (distance : Emb -> Emb -> Q).

(** The first encoding ever resolved becomes [speaker_1]: it is
    registered as the sole reference and the counter moves to 2. *)
Theorem resolve_first e :
  resolve distance registry_init e =
  Some (speaker_name 1, mk_registry [e] [speaker_name 1] 2).
Proof. reflexivity. Qed.

(** A second encoding gets the first speaker's identity exactly when
    its distance to the first reference is at most the tolerance 0.6
    ([compare_faces] tests [<=]); otherwise it becomes [speaker_2]. *)
Theorem resolve_second e1 e2 :
  option_map fst
    (resolve distance (mk_registry [e1] [speaker_name 1] 2) e2) =
  Some (if Qle_bool (distance e1 e2) tolerance then speaker_name 1
        else speaker_name 2).
Proof.
  unfold resolve, identify_speaker, compare_faces, face_distance; simpl.
  destruct (Qle_bool (distance e1 e2) tolerance); reflexivity.
Qed.

End TwoEncodings.

(** One-dimensional encodings with the distance [|a - b|]: a concrete
    instance for the witnesses. *)
Definition line_distance (a b : Q) : Q := Qabs (a - b).

Lemma resolve_refines_witness :
  registry_wf (mk_registry [0; 1] [speaker_name 1; speaker_name 2] 3) /\
  (resolve line_distance (mk_registry [0; 1] [speaker_name 1; speaker_name 2] 3) (9 # 10)
     = Some (speaker_name 2, mk_registry [0; 1] [speaker_name 1; speaker_name 2] 3) <->
   resolves line_distance (mk_registry [0; 1] [speaker_name 1; speaker_name 2] 3) (9 # 10)
     (speaker_name 2) (mk_registry [0; 1] [speaker_name 1; speaker_name 2] 3)).
Proof.
  split; [repeat split|apply (resolve_refines line_distance); repeat split].
Defined.

Lemma resolve_wf_witness :
  registry_wf (@registry_init Q) /\
  resolve line_distance registry_init 0 = Some (speaker_name 1, mk_registry [0] [speaker_name 1] 2) /\
  registry_wf (mk_registry [0] [speaker_name 1] 2).
Proof.
  split; [repeat split|]. split; [reflexivity|].
  apply (resolve_wf line_distance registry_init 0 (speaker_name 1)); [repeat split|reflexivity].
Defined.

(** At the tolerance itself the code matches: an encoding at
    distance exactly 0.6 from [speaker_1]'s reference is resolved to
    [speaker_1]. (The specification requires a distance [>= tau] to give
    a different speaker.) *)
Example boundary_distance_same_speaker :
  line_distance 0 (6 # 10) == tolerance /\
  option_map fst (resolve line_distance (mk_registry [0] [speaker_name 1] 2) (6 # 10)) =
  Some (speaker_name 1).
Proof. split; [reflexivity|vm_compute; reflexivity]. Qed.

Lemma resolve_again_witness :
  registry_wf (mk_registry [0; 1] [speaker_name 1; speaker_name 2] 3) /\
  line_distance 5 5 <= tolerance /\
  resolve line_distance (mk_registry [0; 1] [speaker_name 1; speaker_name 2] 3) 5 =
    Some (speaker_name 3, mk_registry [0; 1; 5] [speaker_name 1; speaker_name 2; speaker_name 3] 4) /\
  resolve line_distance (mk_registry [0; 1; 5] [speaker_name 1; speaker_name 2; speaker_name 3] 4) 5 =
    Some (speaker_name 3, mk_registry [0; 1; 5] [speaker_name 1; speaker_name 2; speaker_name 3] 4).
Proof.
  split; [repeat split|]. split; [vm_compute; discriminate|]. split; [vm_compute; reflexivity|].
  apply (resolve_again line_distance (mk_registry [0; 1] [speaker_name 1; speaker_name 2] 3)).
  - repeat split.
  - vm_compute. discriminate.
  - vm_compute. reflexivity.
Defined.
