(* ===== verification/Faces.v ===== *)
(** * The face record

    The dictionary [face_data] built in the main loop
    (src/face_detection.py, lines 94-104), and the timestamp order used by
    every [sort(key=lambda x: x['timestamp'])] of the program. *)

From Stdlib Require Import ZArith QArith List String Floats Lia.
From S2P Require Import Prelude.
Import ListNotations.

Local Open Scope Z_scope.
Local Open Scope py_scope.

(** One detected face at one sampled frame. [confidence] is a float64;
    [timestamp] is [frame_count / fps], kept exact. *)
Record face := mk_face {
  timestamp : Q;
  x : Z;
  y : Z;
  width : Z;
  height : Z;
  confidence : float;
  speakerId : string;
  center_x : Z;
  center_y : Z
}.

(** Lines 94-104, with [center_x = x + w // 2]. *)
Definition face_data (ts : Q) (x y w h : Z) (conf : float) (speaker_id : string) : face :=
  mk_face ts x y w h conf speaker_id (x + w // 2) (y + h // 2).

(** The sort key [x['timestamp']] with Python's [<]. *)
Definition ts_lt (a b : face) : bool := qltb (timestamp a) (timestamp b).

(** What smoothing keeps of a face: everything but the position. *)
Definition track_key (f : face) : Q * Z * Z * float * string :=
  (timestamp f, width f, height f, confidence f, speakerId f).

Definition speaker_is (s : string) (f : face) : bool := String.eqb (speakerId f) s.

(** The Detection of the specification's data model (its section 3): a
    non-negative timestamp and box, a confidence within [0, 100], and the
    centre derived from the box. *)
Definition detection_typed (f : face) : Prop :=
  (0 <= timestamp f)%Q /\ 0 <= x f /\ 0 <= y f /\ 0 <= width f /\ 0 <= height f /\
  (0 <=? confidence f)%float = true /\ (confidence f <=? 100)%float = true /\
  center_x f = x f + width f // 2 /\ center_y f = y f + height f // 2.

(** ** The timestamp order is a strict weak order *)

Lemma ts_lt_irrefl f : ts_lt f f = false.
Proof. apply qltb_false_iff. apply Qle_refl. Qed.

Lemma ts_lt_trans a b c : ts_lt a b = true -> ts_lt b c = true -> ts_lt a c = true.
Proof. unfold ts_lt. rewrite !qltb_iff. apply Qlt_trans. Qed.

Lemma ts_lt_neg_trans a b c : ts_lt a b = false -> ts_lt b c = false -> ts_lt a c = false.
Proof. unfold ts_lt. rewrite !qltb_false_iff. intros H1 H2. eapply Qle_trans; eassumption. Qed.

Lemma le_by_ts a b : le_by ts_lt a b <-> (timestamp a <= timestamp b)%Q.
Proof. unfold le_by, ts_lt. apply qltb_false_iff. Qed.

#[export] Hint Resolve ts_lt_irrefl ts_lt_trans ts_lt_neg_trans : magic.

(** ** Speakers in first-seen order *)

(** The distinct speaker ids of a face list, in order of first
    appearance: the key order of any insertion-ordered dictionary keyed
    by [speakerId]. *)
Definition add_id (ids : list string) (s : string) : list string :=
  if existsb (String.eqb s) ids then ids else ids ++ [s].

Definition speaker_order (faces : list face) : list string :=
  fold_left (fun ids f => add_id ids (speakerId f)) faces [].
