(* ===== verification/Smoothing.v ===== *)
(** * Temporal smoothing ([smooth_face_tracking])

    src/face_detection.py, lines 234-273. The faces are grouped by speaker
    in a [defaultdict(list)], an insertion-ordered dictionary, modelled as
    an association list in first-seen order. Each group is sorted by
    timestamp. Every interior face gets the truncated mean of its own and
    its two neighbours' [x] and [y], read from the unsmoothed group. The
    concatenation is sorted again by timestamp. *)

From Stdlib Require Import ZArith QArith List String Floats Sorted Permutation Bool Lia.
From S2P Require Import Prelude Faces.
Import ListNotations.

Local Open Scope Z_scope.
Local Open Scope py_scope.

(** [speaker_faces[face['speakerId']].append(face)] (line 244). *)
Fixpoint group_add (sid : string) (f : face) (g : list (string * list face))
    : list (string * list face) :=
  match g with
  | [] => [(sid, [f])]
  | (k, fs) :: g' =>
      if String.eqb k sid then (k, fs ++ [f]) :: g' else (k, fs) :: group_add sid f g'
  end.

(** Lines 242-244. *)
Definition group_by_speaker (faces : list face) : list (string * list face) :=
  fold_left (fun g f => group_add (speakerId f) f g) faces [].

(** Lines 262-266: [face.copy()] with the averaged position and the
    recomputed centre. [int((a + b + c) / 3)] truncates toward zero. *)
Definition smooth_one (prev_face cur next_face : face) : face :=
  let x' := Z.quot (x prev_face + x cur + x next_face) 3 in
  let y' := Z.quot (y prev_face + y cur + y next_face) 3 in
  mk_face (timestamp cur) x' y' (width cur) (height cur) (confidence cur)
    (speakerId cur) (x' + width cur // 2) (y' + height cur // 2).

(** Lines 253-268: the loop [for i, face in enumerate(speaker_face_list)]. *)
Definition smooth_group (speaker_face_list : list face) : list face :=
  let n := List.length speaker_face_list in
  map (fun '(i, f) =>
         if (i =? 0)%nat || (i =? n - 1)%nat then f
         else smooth_one (nth (i - 1) speaker_face_list f) f
                         (nth (i + 1) speaker_face_list f))
      (combine (seq 0 n) speaker_face_list).

(** Lines 238-273. *)
Definition smooth_face_tracking (faces : list face) : list face :=
  match faces with
  | [] => faces
  | _ =>
      let smoothed_faces :=
        flat_map (fun '(_, speaker_face_list) =>
                    smooth_group (sort_by ts_lt speaker_face_list))
                 (group_by_speaker faces) in
      sort_by ts_lt smoothed_faces
  end.

(** ** The per-group window *)

Lemma length_smooth_group l : List.length (smooth_group l) = List.length l.
Proof.
  unfold smooth_group. rewrite length_map, length_combine, length_seq. lia.
Qed.

Lemma nth_error_combine_seq {A} (l : list A) k i :
  nth_error (combine (seq k (List.length l)) l) i =
  option_map (fun f => (k + i, f)%nat) (nth_error l i).
Proof.
  revert k i. induction l as [|a l IH]; intros k [|i]; simpl; try reflexivity.
  - f_equal. f_equal. lia.
  - rewrite IH. destruct (nth_error l i); simpl; [do 2 f_equal; lia|reflexivity].
Qed.

(** Face [i] of a smoothed group, as the loop body computes it. *)
Lemma nth_error_smooth_group l i :
  nth_error (smooth_group l) i =
  option_map (fun f =>
      if (i =? 0)%nat || (i =? List.length l - 1)%nat then f
      else smooth_one (nth (i - 1) l f) f (nth (i + 1) l f)) (nth_error l i).
Proof.
  unfold smooth_group. rewrite nth_error_map, nth_error_combine_seq.
  destruct (nth_error l i); reflexivity.
Qed.

Lemma map_snd_combine_seq {A} (l : list A) k :
  map snd (combine (seq k (List.length l)) l) = l.
Proof.
  revert k. induction l as [|a l IH]; intro k; simpl; [reflexivity|]. now rewrite IH.
Qed.

Lemma track_key_smooth_one p c n : track_key (smooth_one p c n) = track_key c.
Proof. reflexivity. Qed.

(** Smoothing a group changes positions only. *)
Lemma track_key_smooth_group l : map track_key (smooth_group l) = map track_key l.
Proof.
  transitivity (map track_key (map snd (combine (seq 0 (List.length l)) l)));
    [|now rewrite map_snd_combine_seq].
  unfold smooth_group. rewrite !map_map.
  apply map_ext. intros [i f]. now destruct (_ || _).
Qed.

Lemma map_timestamp_track l l' :
  map track_key l = map track_key l' -> map timestamp l = map timestamp l'.
Proof.
  intro H. apply (f_equal (map (fun k => fst (fst (fst (fst k)))))) in H.
  rewrite !map_map in H. exact H.
Qed.

Lemma map_speaker_track l l' :
  map track_key l = map track_key l' -> map speakerId l = map speakerId l'.
Proof.
  intro H. apply (f_equal (map snd)) in H. rewrite !map_map in H. exact H.
Qed.

(** C22. A group of at most two faces passes through unchanged (its
    first and last faces are kept as they are). *)
Theorem smooth_group_short l :
  (List.length l <= 2)%nat -> smooth_group l = l.
Proof.
  destruct l as [|a [|b [|c l]]]; simpl; intro H; try reflexivity. lia.
Qed.

(** C8. The 3-point window: in a group of [n] faces, face [i] with
    [0 < i < n - 1] is replaced by [smooth_one] of the unsmoothed faces
    [i - 1], [i] and [i + 1]; the first and last faces are kept. *)
Theorem smooth_group_window l i p c n :
  (0 < i)%nat -> (i < List.length l - 1)%nat ->
  nth_error l (i - 1) = Some p -> nth_error l i = Some c ->
  nth_error l (i + 1) = Some n ->
  nth_error (smooth_group l) i = Some (smooth_one p c n).
Proof.
  intros H0 H1 Hp Hc Hn. rewrite nth_error_smooth_group, Hc. simpl.
  replace ((i =? 0)%nat || (i =? List.length l - 1)%nat) with false
    by (symmetry; apply orb_false_iff; split; apply Nat.eqb_neq; lia).
  f_equal. f_equal; apply nth_error_nth; assumption.
Qed.

(** ** Grouping by speaker *)

(** The group of speaker [s] in the dictionary ([[]] when absent). *)
Fixpoint group_of (s : string) (g : list (string * list face)) : list face :=
  match g with
  | [] => []
  | (k, fs) :: g' => if String.eqb k s then fs else group_of s g'
  end.

(** The dictionary invariant: each key once, each group holding faces of
    its own speaker only. *)
Definition groups_wf (g : list (string * list face)) : Prop :=
  NoDup (map fst g) /\
  Forall (fun '(k, fs) => Forall (fun f => speaker_is k f = true) fs) g.

Lemma group_of_add s sid f g :
  group_of s (group_add sid f g) =
  if String.eqb sid s then group_of s g ++ [f] else group_of s g.
Proof.
  induction g as [|[k fs] g IH]; simpl; [now destruct (String.eqb sid s)|].
  destruct (String.eqb_spec k sid) as [->|Hk]; simpl.
  - now destruct (String.eqb sid s).
  - rewrite IH. destruct (String.eqb_spec k s) as [->|]; [|reflexivity].
    apply String.eqb_neq in Hk. rewrite String.eqb_sym, Hk. reflexivity.
Qed.

Lemma keys_group_add sid f g :
  map fst (group_add sid f g) =
  if existsb (fun k => String.eqb k sid) (map fst g) then map fst g
  else map fst g ++ [sid].
Proof.
  induction g as [|[k fs] g IH]; simpl; [reflexivity|].
  destruct (String.eqb k sid); simpl; [reflexivity|]. rewrite IH.
  now destruct (existsb _ _).
Qed.

Lemma groups_wf_add f g : groups_wf g -> groups_wf (group_add (speakerId f) f g).
Proof.
  intros [Hnd Hall]. split.
  - rewrite keys_group_add. destruct (existsb _ _) eqn:E; [exact Hnd|].
    apply NoDup_app; [exact Hnd|repeat constructor; simpl; tauto|].
    intros k Hk [Hkf|[]]. rewrite Hkf in E. apply not_true_iff_false in E. apply E.
    apply existsb_exists. exists k. split; [exact Hk|apply String.eqb_refl].
  - induction Hall as [|[k fs] g Hfs Hall IH]; simpl.
    + repeat constructor. apply String.eqb_refl.
    + destruct (String.eqb_spec k (speakerId f)) as [->|]; constructor; auto.
      * apply Forall_app. split; [exact Hfs|repeat constructor; apply String.eqb_refl].
      * apply IH. now inversion Hnd.
Qed.

Lemma group_of_fold s faces g :
  group_of s (fold_left (fun g f => group_add (speakerId f) f g) faces g) =
  group_of s g ++ filter (speaker_is s) faces.
Proof.
  revert g. induction faces as [|f faces IH]; intro g; simpl; [now rewrite app_nil_r|].
  rewrite IH, group_of_add. unfold speaker_is.
  destruct (String.eqb (speakerId f) s); simpl; now rewrite <- ?app_assoc.
Qed.

Lemma groups_wf_fold faces g :
  groups_wf g -> groups_wf (fold_left (fun g f => group_add (speakerId f) f g) faces g).
Proof.
  revert g. induction faces as [|f faces IH]; intros g Hg; simpl; auto using groups_wf_add.
Qed.

Lemma group_of_group_by_speaker s faces :
  group_of s (group_by_speaker faces) = filter (speaker_is s) faces.
Proof. apply group_of_fold. Qed.

Lemma groups_wf_group_by_speaker faces : groups_wf (group_by_speaker faces).
Proof. apply groups_wf_fold. split; constructor. Qed.

(** ** The whole smoother *)

Lemma filter_all_true {A} (p : A -> bool) l :
  Forall (fun a => p a = true) l -> filter p l = l.
Proof. induction 1; simpl; [reflexivity|]. rewrite H. now f_equal. Qed.

Lemma filter_all_false {A} (p : A -> bool) l :
  Forall (fun a => p a = false) l -> filter p l = [].
Proof. induction 1; simpl; [reflexivity|]. now rewrite H. Qed.

(** Sortedness by a relation that reads one projection carries over to a
    list with the same projections. *)
Lemma sorted_same_proj {A B} (f : A -> B) (R' : B -> B -> Prop) l l' :
  map f l = map f l' -> Sorted (fun a b => R' (f a) (f b)) l ->
  Sorted (fun a b => R' (f a) (f b)) l'.
Proof.
  revert l'. induction l as [|a l IH]; intros [|a' l'] Hm Hs; try discriminate;
    [constructor|]. simpl in Hm. injection Hm as Ha Hm.
  apply Sorted_inv in Hs as [Hs Hhd]. constructor; [now apply (IH l')|].
  destruct l as [|b l], l' as [|b' l']; try discriminate; constructor.
  simpl in Hm. injection Hm as Hb _. rewrite <- Ha, <- Hb. now inversion Hhd.
Qed.

Lemma smooth_group_sorted l :
  Sorted (le_by ts_lt) l -> Sorted (le_by ts_lt) (smooth_group l).
Proof.
  apply (sorted_same_proj timestamp (fun t u => qltb u t = false)).
  symmetry. apply map_timestamp_track, track_key_smooth_group.
Qed.

Lemma speakers_smooth_sorted k l :
  Forall (fun f => speaker_is k f = true) l ->
  Forall (fun f => speaker_is k f = true) (smooth_group (sort_by ts_lt l)).
Proof.
  intro H. unfold speaker_is.
  apply (Forall_map speakerId (fun s => String.eqb s k = true)).
  rewrite (map_speaker_track _ _ (track_key_smooth_group _)).
  apply Forall_map, Forall_forall. intros f Hf. apply In_sort_by in Hf.
  eapply Forall_forall in H; [exact H|exact Hf].
Qed.

Definition smooth_groups (g : list (string * list face)) : list face :=
  flat_map (fun '(_, l) => smooth_group (sort_by ts_lt l)) g.

Lemma filter_smooth_groups_absent s g :
  groups_wf g -> ~ In s (map fst g) -> filter (speaker_is s) (smooth_groups g) = [].
Proof.
  intros [_ Hall] Hs. induction Hall as [|[k fs] g Hfs Hall IH]; [reflexivity|].
  simpl in *. assert (Hks : k <> s) by tauto.
  rewrite filter_app, IH by tauto. rewrite app_nil_r.
  apply filter_all_false. apply speakers_smooth_sorted in Hfs.
  eapply Forall_impl; [|exact Hfs]. intros f. unfold speaker_is.
  intro Hf. apply String.eqb_eq in Hf. apply String.eqb_neq. congruence.
Qed.

Lemma filter_smooth_groups s g :
  groups_wf g ->
  filter (speaker_is s) (smooth_groups g) = smooth_group (sort_by ts_lt (group_of s g)).
Proof.
  intro Hwf. induction g as [|[k fs] g IH]; [reflexivity|].
  destruct Hwf as [Hnd Hall]. inversion Hnd as [|? ? Hk Hnd']; subst.
  inversion Hall as [|? ? Hfs Hall']; subst.
  simpl. rewrite filter_app. destruct (String.eqb_spec k s) as [->|Hks].
  - rewrite filter_all_true by now apply speakers_smooth_sorted.
    rewrite filter_smooth_groups_absent; [apply app_nil_r|split; assumption|exact Hk].
  - rewrite IH by (split; assumption). rewrite filter_all_false; [reflexivity|].
    apply speakers_smooth_sorted in Hfs. eapply Forall_impl; [|exact Hfs].
    intros f. unfold speaker_is. intro Hf. apply String.eqb_eq in Hf.
    apply String.eqb_neq. congruence.
Qed.

(** C7. Per speaker, the smoother is the 3-point window on that
    speaker's faces in chronological order: the faces of speaker [s] in
    the output, in output order, are [smooth_group] of the faces of [s] in
    the input, stably sorted by timestamp. *)
Theorem smooth_face_tracking_per_speaker s faces :
  filter (speaker_is s) (smooth_face_tracking faces) =
  smooth_group (sort_by ts_lt (filter (speaker_is s) faces)).
Proof.
  destruct faces as [|f0 faces']; [reflexivity|].
  change (smooth_face_tracking (f0 :: faces'))
    with (sort_by ts_lt (smooth_groups (group_by_speaker (f0 :: faces')))).
  rewrite filter_sort_by by eauto with magic.
  rewrite filter_smooth_groups by apply groups_wf_group_by_speaker.
  rewrite group_of_group_by_speaker.
  apply sort_by_sorted_id; eauto with magic.
  apply smooth_group_sorted, sort_by_sorted; eauto with magic.
Qed.

(** On a chronological input, the faces of each speaker keep their
    order and everything but their positions. *)
Lemma track_speaker_smooth s faces :
  Sorted (le_by ts_lt) faces ->
  map track_key (filter (speaker_is s) (smooth_face_tracking faces)) =
  map track_key (filter (speaker_is s) faces).
Proof.
  intro Hs. destruct faces as [|f0 faces']; [reflexivity|].
  change (smooth_face_tracking (f0 :: faces'))
    with (sort_by ts_lt (smooth_groups (group_by_speaker (f0 :: faces')))).
  rewrite filter_sort_by by eauto with magic.
  rewrite filter_smooth_groups by apply groups_wf_group_by_speaker.
  rewrite group_of_group_by_speaker.
  rewrite sort_by_sorted_id by (eauto with magic; apply smooth_group_sorted, sort_by_sorted; eauto with magic).
  rewrite track_key_smooth_group, <- filter_sort_by by eauto with magic.
  rewrite sort_by_sorted_id by eauto with magic. reflexivity.
Qed.

Lemma perm_group_add sid f g :
  Permutation (flat_map snd (group_add sid f g)) (flat_map snd g ++ [f]).
Proof.
  induction g as [|[k fs] g IH]; simpl; [reflexivity|].
  destruct (String.eqb k sid); simpl.
  - rewrite <- !app_assoc. apply Permutation_app_head, Permutation_app_comm.
  - rewrite <- app_assoc. now apply Permutation_app_head.
Qed.

Lemma perm_group_fold faces g :
  Permutation (flat_map snd (fold_left (fun g f => group_add (speakerId f) f g) faces g))
              (flat_map snd g ++ faces).
Proof.
  revert g. induction faces as [|f faces IH]; intro g; simpl; [now rewrite app_nil_r|].
  rewrite IH, perm_group_add, <- app_assoc. reflexivity.
Qed.

Lemma perm_group_by_speaker faces : Permutation (flat_map snd (group_by_speaker faces)) faces.
Proof. apply (perm_group_fold faces []). Qed.

Lemma track_smooth_groups g :
  Permutation (map track_key (smooth_groups g)) (map track_key (flat_map snd g)).
Proof.
  induction g as [|[k fs] g IH]; simpl; [reflexivity|].
  rewrite !map_app, track_key_smooth_group. apply Permutation_app; [|exact IH].
  apply Permutation_map, sort_by_perm.
Qed.

(** Smoothing permutes the faces and changes positions only. *)
Lemma perm_track_smooth faces :
  Permutation (map track_key (smooth_face_tracking faces)) (map track_key faces).
Proof.
  destruct faces as [|f0 faces']; [reflexivity|].
  change (smooth_face_tracking (f0 :: faces'))
    with (sort_by ts_lt (smooth_groups (group_by_speaker (f0 :: faces')))).
  rewrite (Permutation_map track_key (sort_by_perm ts_lt _)), track_smooth_groups.
  apply Permutation_map, perm_group_by_speaker.
Qed.

Lemma length_smooth_face_tracking faces :
  List.length (smooth_face_tracking faces) = List.length faces.
Proof.
  rewrite <- (length_map track_key (smooth_face_tracking faces)), <- (length_map track_key faces).
  apply Permutation_length, perm_track_smooth.
Qed.

(** C20. Smoothing moves boxes only: the output has the same faces as the
    input, up to order, with the same timestamp, width, height,
    confidence and speaker. In particular [total_faces_detected] equals
    the number of faces the loop collected. *)
Theorem smooth_face_tracking_track faces :
  Permutation (map track_key (smooth_face_tracking faces)) (map track_key faces).
Proof. apply perm_track_smooth. Qed.

(** Every output face is an input face with a new position. *)
Lemma In_smooth_face_tracking f faces :
  In f (smooth_face_tracking faces) -> exists g, In g faces /\ track_key g = track_key f.
Proof.
  intro H. apply (in_map track_key) in H.
  apply (Permutation_in _ (perm_track_smooth faces)), in_map_iff in H as [g [Hg Hin]]. eauto.
Qed.

(** A property of faces that [smooth_one] preserves holds of every face
    the smoother outputs when it holds of every input face. *)
Section Closure.
Variable Q : face -> Prop.
Hypothesis Q_smooth_one : forall p c n, Q p -> Q c -> Q n -> Q (smooth_one p c n).

Lemma smooth_group_closed l : Forall Q l -> Forall Q (smooth_group l).
Proof.
  intro H. apply Forall_forall. intros f Hf. apply In_nth_error in Hf as [i Hi].
  rewrite nth_error_smooth_group in Hi.
  destruct (nth_error l i) as [c|] eqn:Ec; [|discriminate]. injection Hi as <-.
  rewrite Forall_forall in H. assert (Hc : Q c) by (apply H; eapply nth_error_In; eauto).
  assert (Hnth : forall j, Q (nth j l c)).
  { intro j. destruct (Nat.lt_ge_cases j (List.length l)).
    - apply H, nth_In. assumption.
    - rewrite nth_overflow by assumption. exact Hc. }
  destruct (_ || _); [exact Hc|apply Q_smooth_one; auto].
Qed.

Lemma smooth_groups_closed g : Forall Q (flat_map snd g) -> Forall Q (smooth_groups g).
Proof.
  induction g as [|[k fs] g IH]; simpl; intro H; [constructor|].
  apply Forall_app in H as [Hfs Hg]. apply Forall_app. split; [|now apply IH].
  apply smooth_group_closed. rewrite (sort_by_perm ts_lt fs). exact Hfs.
Qed.

Lemma smooth_face_tracking_closed faces : Forall Q faces -> Forall Q (smooth_face_tracking faces).
Proof.
  intro H. destruct faces as [|f0 faces']; [exact H|].
  change (smooth_face_tracking (f0 :: faces'))
    with (sort_by ts_lt (smooth_groups (group_by_speaker (f0 :: faces')))).
  rewrite (sort_by_perm ts_lt _). apply smooth_groups_closed.
  rewrite (perm_group_by_speaker (f0 :: faces')). exact H.
Qed.

End Closure.

(** An average of non-negative coordinates is non-negative, and the
    centre is recomputed from the new position. *)
Lemma smooth_one_typed p c n :
  detection_typed p -> detection_typed c -> detection_typed n -> detection_typed (smooth_one p c n).
Proof.
  unfold detection_typed, smooth_one; cbn [timestamp x y width height confidence center_x center_y].
  intros (_ & Hpx & Hpy & _) (Ht & Hx & Hy & Hw & Hh & H0 & H1 & _) (_ & Hnx & Hny & _).
  repeat split; try assumption; apply Z.quot_pos; lia.
Qed.

Lemma sorted_le_by_ts l :
  Sorted (le_by ts_lt) l -> Sorted (fun a b => (timestamp a <= timestamp b)%Q) l.
Proof. apply sorted_impl. intros a b. apply le_by_ts. Qed.

(** C21. The smoother's output is in chronological order. *)
Theorem smooth_face_tracking_sorted faces :
  Sorted (fun a b => (timestamp a <= timestamp b)%Q) (smooth_face_tracking faces).
Proof.
  destruct faces as [|f0 faces']; [constructor|].
  apply sorted_le_by_ts, sort_by_sorted; eauto with magic.
Qed.

(** The example of the specification: three faces of one speaker at
    [x = 10, 20, 30]. *)
Definition spec_face (t : Q) (x0 : Z) : face := face_data t x0 0 10 10 0%float "speaker_1".

(** On the specification's example the middle face moves to
    [(10 + 20 + 30) // 3 = 20] and the end faces stay. *)
Example smooth_spec_example :
  map x (smooth_face_tracking [spec_face 0 10; spec_face 1 20; spec_face 2 30]) = [10; 20; 30].
Proof. vm_compute. reflexivity. Qed.

Lemma smooth_group_short_witness :
  (List.length [spec_face 0 10; spec_face 1 20] <= 2)%nat /\
  smooth_group [spec_face 0 10; spec_face 1 20] = [spec_face 0 10; spec_face 1 20].
Proof. split; [simpl; lia|apply smooth_group_short; simpl; lia]. Defined.

Lemma smooth_group_window_witness :
  (0 < 1)%nat /\
  nth_error (smooth_group [spec_face 0 10; spec_face 1 20; spec_face 2 30]) 1 =
    Some (smooth_one (spec_face 0 10) (spec_face 1 20) (spec_face 2 30)).
Proof. split; [lia|apply smooth_group_window; simpl; (lia || reflexivity)]. Defined.

(** C29. Bounds: a smoothed coordinate lies between the least and the
    greatest of the three coordinates it averages, so smoothing never
    moves a face beyond its neighbours. *)
Theorem smooth_one_bounds p c n :
  Z.min (x p) (Z.min (x c) (x n)) <= x (smooth_one p c n) <= Z.max (x p) (Z.max (x c) (x n)) /\
  Z.min (y p) (Z.min (y c) (y n)) <= y (smooth_one p c n) <= Z.max (y p) (Z.max (y c) (y n)).
Proof.
  unfold smooth_one; simpl.
  pose proof (Z.quot_rem' (x p + x c + x n) 3). pose proof (Z.quot_rem' (y p + y c + y n) 3).
  pose proof (Z.rem_bound_abs (x p + x c + x n) 3 ltac:(lia)).
  pose proof (Z.rem_bound_abs (y p + y c + y n) 3 ltac:(lia)).
  pose proof (Z.rem_sign_mul (x p + x c + x n) 3). pose proof (Z.rem_sign_mul (y p + y c + y n) 3).
  split; split; nia.
Qed.

(** Smoothing can push a box out of the frame: in a 100-pixel-wide
    frame, three in-frame boxes of one speaker (a narrow one, a
    full-width one, a narrow one) give a full-width box at [x = 60],
    whose right edge is at 160. *)
Example smoothed_box_leaves_frame :
  let faces := [face_data 0 90 0 10 10 0%float "speaker_1";
                face_data 1 0 0 100 10 0%float "speaker_1";
                face_data 2 90 0 10 10 0%float "speaker_1"] in
  forallb (fun f => (0 <=? x f) && (x f + width f <=? 100)) faces = true /\
  existsb (fun f => 100 <? x f + width f) (smooth_face_tracking faces) = true.
Proof. split; vm_compute; reflexivity. Qed.
