(* ===== verification/Summary.v ===== *)
(** * Speaker aggregation ([create_speaker_summary])

    src/face_detection.py, lines 188-232. A [defaultdict] of per-speaker
    statistics, in first-seen order, is filled in one pass over the
    faces. Each entry becomes a summary, and the summaries are sorted by
    screen time in descending order with CPython's stable sort
    ([reverse=True] keeps equal keys in their original order). *)

From Stdlib Require Import ZArith QArith List String Floats Sorted Permutation Bool Lia.
From S2P Require Import Prelude Faces.
Import ListNotations.

Local Open Scope Z_scope.

(** The statistics of one speaker (lines 192-198). [first_appearance]
    is [None] for [float('inf')]. *)
Record stats := mk_stats {
  total_appearances : nat;
  avg_confidence_sum : float;
  first_appearance : option Q;
  last_appearance : Q;
  avg_position_x : Z;
  avg_position_y : Z
}.

Definition stats_default : stats := mk_stats 0 0%float None 0%Q 0 0.

(** Python's [min(float('inf'), t)] and [min(a, t)]. *)
Definition min_first (first : option Q) (t : Q) : Q :=
  match first with
  | None => t
  | Some a => py_min qltb a t
  end.

(** Lines 205-210: one face added to its speaker's statistics. *)
Definition stats_add (st : stats) (face : face) : stats :=
  mk_stats (S (total_appearances st))
    (PrimFloat.add (avg_confidence_sum st) (confidence face))
    (Some (min_first (first_appearance st) (timestamp face)))
    (py_max qltb (last_appearance st) (timestamp face))
    (avg_position_x st + center_x face)
    (avg_position_y st + center_y face).

(** [stats = speaker_stats[speaker_id]] followed by the updates: the
    entry is created with the default statistics on first access. *)
Fixpoint stats_update (sid : string) (f : face) (d : list (string * stats))
    : list (string * stats) :=
  match d with
  | [] => [(sid, stats_add stats_default f)]
  | (k, st) :: d' =>
      if String.eqb k sid then (k, stats_add st f) :: d' else (k, st) :: stats_update sid f d'
  end.

(** Lines 201-210. *)
Definition speaker_stats (faces : list face) : list (string * stats) :=
  fold_left (fun d f => stats_update (speakerId f) f d) faces [].

(** One entry of [speakers] (lines 216-227). *)
Record speaker_summary := mk_summary {
  id : string;
  appearances : nat;
  avg_confidence : float;
  first_seen : Q;
  last_seen : Q;
  screen_time : Q;
  avg_position : float * float
}.

(** Lines 214-227. The first appearance is always set when the count is
    positive; [0] stands for the unreachable [inf]. *)
Definition finalize (entry : string * stats) : list speaker_summary :=
  let '(speaker_id, st) := entry in
  if (0 <? total_appearances st)%nat then
    let n := float_of_Z (Z.of_nat (total_appearances st)) in
    let first := match first_appearance st with Some a => a | None => 0%Q end in
    [mk_summary speaker_id (total_appearances st)
       (PrimFloat.div (avg_confidence_sum st) n) first (last_appearance st)
       (last_appearance st - first)%Q
       (PrimFloat.div (float_of_Z (avg_position_x st)) n,
        PrimFloat.div (float_of_Z (avg_position_y st)) n)]
  else [].

(** The sort key of line 230 with [reverse=True]: [a] goes first when its
    screen time is larger. *)
Definition screen_time_gt (a b : speaker_summary) : bool :=
  qltb (screen_time b) (screen_time a).

(** Lines 188-232. [known_names] is not used by the code. *)
Definition create_speaker_summary (faces : list face) (known_names : list string)
    : list speaker_summary :=
  sort_by screen_time_gt (flat_map finalize (speaker_stats faces)).

(** ** The statistics dictionary *)

Fixpoint stats_of (s : string) (d : list (string * stats)) : option stats :=
  match d with
  | [] => None
  | (k, st) :: d' => if String.eqb k s then Some st else stats_of s d'
  end.

Definition stats_or_default (o : option stats) : stats :=
  match o with Some st => st | None => stats_default end.

Lemma stats_of_update s sid f d :
  stats_of s (stats_update sid f d) =
  if String.eqb sid s then Some (stats_add (stats_or_default (stats_of s d)) f)
  else stats_of s d.
Proof.
  induction d as [|[k st] d IH]; simpl; [now destruct (String.eqb sid s)|].
  destruct (String.eqb_spec k sid) as [->|Hk]; simpl.
  - now destruct (String.eqb sid s).
  - rewrite IH. destruct (String.eqb_spec k s) as [->|]; [|reflexivity].
    apply String.eqb_neq in Hk. now rewrite String.eqb_sym, Hk.
Qed.

(** The statistics of speaker [s]: [stats_add] folded over the faces of
    [s], in input order. *)
Lemma stats_of_speaker_stats s faces :
  stats_of s (speaker_stats faces) =
  match filter (speaker_is s) faces with
  | [] => None
  | fs => Some (fold_left stats_add fs stats_default)
  end.
Proof.
  unfold speaker_stats.
  enough (H : forall d, stats_of s (fold_left (fun d f => stats_update (speakerId f) f d) faces d) =
    match filter (speaker_is s) faces with
    | [] => stats_of s d
    | fs => Some (fold_left stats_add fs (stats_or_default (stats_of s d)))
    end) by apply H.
  induction faces as [|f faces IH]; intro d; simpl; [reflexivity|].
  rewrite IH, stats_of_update. unfold speaker_is at 2.
  destruct (String.eqb (speakerId f) s); [|reflexivity].
  destruct (filter (speaker_is s) faces); reflexivity.
Qed.

Lemma keys_stats_update sid f d :
  map fst (stats_update sid f d) = add_id (map fst d) sid.
Proof.
  unfold add_id. induction d as [|[k st] d IH]; simpl; [reflexivity|].
  rewrite (String.eqb_sym sid k). destruct (String.eqb k sid); simpl; [reflexivity|].
  rewrite IH. now destruct (existsb _ _).
Qed.

(** The dictionary's keys are the speakers in first-seen order. *)
Lemma keys_speaker_stats faces : map fst (speaker_stats faces) = speaker_order faces.
Proof.
  unfold speaker_stats, speaker_order. change (@nil string) with (map fst (@nil (string * stats))).
  generalize (@nil (string * stats)).
  induction faces as [|f faces IH]; intro d; simpl; [reflexivity|].
  now rewrite IH, keys_stats_update.
Qed.

(** A property of statistics that [stats_add] establishes on the default
    entry and preserves holds of every entry of the dictionary. *)
Section StatsInvariant.
Variable P : stats -> Prop.
Hypothesis P_add : forall st f, st = stats_default \/ P st -> P (stats_add st f).

Lemma Forall_stats_update sid f d :
  Forall (fun e => P (snd e)) d -> Forall (fun e => P (snd e)) (stats_update sid f d).
Proof.
  induction 1 as [|[k st] d Hst Hd IH]; simpl.
  - constructor; [apply P_add; now left|constructor].
  - destruct (String.eqb k sid); constructor; auto. apply P_add. now right.
Qed.

Lemma Forall_speaker_stats faces : Forall (fun e => P (snd e)) (speaker_stats faces).
Proof.
  unfold speaker_stats. generalize (Forall_nil (fun e : string * stats => P (snd e))).
  generalize (@nil (string * stats)).
  induction faces as [|f faces IH]; intros d Hd; simpl; auto using Forall_stats_update.
Qed.

End StatsInvariant.

Definition entry_positive (e : string * stats) : Prop := (0 < total_appearances (snd e))%nat.

Lemma positive_speaker_stats faces : Forall entry_positive (speaker_stats faces).
Proof.
  apply (Forall_speaker_stats (fun st => 0 < total_appearances st)%nat).
  intros st f _. simpl. lia.
Qed.

Lemma ids_finalize d : Forall entry_positive d -> map id (flat_map finalize d) = map fst d.
Proof.
  induction 1 as [|[k st] d Hst Hd IH]; simpl; [reflexivity|].
  unfold entry_positive in Hst; simpl in Hst.
  apply Nat.ltb_lt in Hst. rewrite Hst. simpl. now f_equal.
Qed.

Lemma add_id_nodup ids s : NoDup ids -> NoDup (add_id ids s).
Proof.
  unfold add_id. destruct (existsb (String.eqb s) ids) eqn:E; [tauto|].
  intro H. apply NoDup_app; [exact H|repeat constructor; simpl; tauto|].
  intros k Hk [->|[]]. apply not_true_iff_false in E. apply E, existsb_exists.
  exists k. split; [exact Hk|apply String.eqb_refl].
Qed.

Lemma speaker_order_nodup faces : NoDup (speaker_order faces).
Proof.
  unfold speaker_order. generalize (NoDup_nil string). generalize (@nil string).
  induction faces as [|f faces IH]; intros ids H; simpl; auto using add_id_nodup.
Qed.

Lemma In_add_id s ids t : In s (add_id ids t) <-> In s ids \/ s = t.
Proof.
  unfold add_id. destruct (existsb (String.eqb t) ids) eqn:E.
  - apply existsb_exists in E as [k [Hk Ek]]. apply String.eqb_eq in Ek. subst k.
    split; [tauto|intros [H| ->]; assumption].
  - rewrite in_app_iff. simpl. split; intros [H|H]; auto; destruct H as [H|[]]; auto.
Qed.

Lemma In_speaker_order s faces :
  In s (speaker_order faces) <-> exists f, In f faces /\ speakerId f = s.
Proof.
  unfold speaker_order.
  enough (H : forall ids, In s (fold_left (fun ids f => add_id ids (speakerId f)) faces ids) <->
                          In s ids \/ exists f, In f faces /\ speakerId f = s)
    by (rewrite H; simpl; tauto).
  induction faces as [|f faces IH]; intro ids; simpl.
  - split; [tauto|intros [H|[? [[] _]]]; exact H].
  - rewrite IH, In_add_id. split.
    + intros [[H|H]|[g [Hg Hs]]]; eauto.
    + intros [H|[g [[<-|Hg] Hs]]]; eauto.
Qed.

Lemma stats_of_In s d st : stats_of s d = Some st -> In (s, st) d.
Proof.
  induction d as [|[k st'] d IH]; simpl; [discriminate|].
  destruct (String.eqb_spec k s) as [->|]; [intro H; injection H as ->; now left|].
  intro H. right. now apply IH.
Qed.

(** ** One speaker's statistics *)

Lemma total_fold fs st :
  total_appearances (fold_left stats_add fs st) = (total_appearances st + List.length fs)%nat.
Proof.
  revert st. induction fs as [|f fs IH]; intro st; simpl; [lia|]. rewrite IH. simpl. lia.
Qed.

Lemma first_fold fs st a0 :
  first_appearance st = Some a0 ->
  exists a, first_appearance (fold_left stats_add fs st) = Some a /\ (a <= a0)%Q /\
    (forall f, In f fs -> (a <= timestamp f)%Q) /\
    (a = a0 \/ exists f, In f fs /\ a = timestamp f).
Proof.
  revert st a0. induction fs as [|f fs IH]; intros st a0 Hst; simpl.
  - exists a0. repeat split; [assumption|apply Qle_refl|tauto|now left].
  - destruct (IH (stats_add st f) (py_min qltb a0 (timestamp f))) as [a [Ha [Hle [Hall Hwho]]]].
    { simpl. now rewrite Hst. }
    destruct (py_min_q_le a0 (timestamp f)) as [H1 H2].
    exists a. repeat split; [exact Ha|eapply Qle_trans; eassumption| |].
    + intros g [<-|Hg]; [eapply Qle_trans; eassumption|auto].
    + destruct Hwho as [->|[g [Hg ->]]]; [|eauto].
      destruct (py_min_cases qltb a0 (timestamp f)) as [->| ->]; eauto.
Qed.

Lemma last_fold fs st :
  (last_appearance st <= last_appearance (fold_left stats_add fs st))%Q /\
  (forall f, In f fs -> (timestamp f <= last_appearance (fold_left stats_add fs st))%Q) /\
  (last_appearance (fold_left stats_add fs st) = last_appearance st \/
   exists f, In f fs /\ last_appearance (fold_left stats_add fs st) = timestamp f).
Proof.
  revert st. induction fs as [|f fs IH]; intro st; simpl.
  - repeat split; [apply Qle_refl|tauto|now left].
  - destruct (IH (stats_add st f)) as [Hle [Hall Hwho]]. simpl in *.
    destruct (py_max_q_ge (last_appearance st) (timestamp f)) as [H1 H2].
    repeat split; [eapply Qle_trans; eassumption| |].
    + intros g [<-|Hg]; [eapply Qle_trans; eassumption|auto].
    + destruct Hwho as [->|[g [Hg ->]]]; [|eauto].
      destruct (py_max_cases qltb (last_appearance st) (timestamp f)) as [->| ->]; eauto.
Qed.

(** ** What a summary depends on *)

(** The position-free part of a speaker's statistics and of its
    summary: everything but the position sums and [avg_position]. *)
Definition stats_key (st : stats) : nat * float * option Q * Q :=
  (total_appearances st, avg_confidence_sum st, first_appearance st, last_appearance st).

Definition summary_key (sm : speaker_summary) : string * nat * float * Q * Q * Q :=
  (id sm, appearances sm, avg_confidence sm, first_seen sm, last_seen sm, screen_time sm).

(** [stats_add] reads a face through its track key only, positions
    apart. *)
Lemma stats_key_fold fs1 fs2 st1 st2 :
  map track_key fs1 = map track_key fs2 -> stats_key st1 = stats_key st2 ->
  stats_key (fold_left stats_add fs1 st1) = stats_key (fold_left stats_add fs2 st2).
Proof.
  revert fs2 st1 st2. induction fs1 as [|f1 fs1 IH]; intros [|f2 fs2] st1 st2 Hk Hs;
    simpl in *; try discriminate; [exact Hs|].
  injection Hk as Hts Hw Hh Hc Hid Hk. apply IH; [exact Hk|].
  unfold stats_key in *. injection Hs as Hn Hsum Hfirst Hlast. simpl.
  now rewrite Hn, Hsum, Hfirst, Hlast, Hts, Hc.
Qed.

Lemma summary_key_finalize s st1 st2 :
  stats_key st1 = stats_key st2 ->
  map summary_key (finalize (s, st1)) = map summary_key (finalize (s, st2)).
Proof.
  unfold stats_key, finalize. intro H. injection H as Hn Hsum Hfirst Hlast.
  rewrite Hn, Hsum, Hfirst, Hlast. destruct (0 <? _)%nat; reflexivity.
Qed.

(** Looking a speaker up among the finalised entries is looking it up
    in the dictionary. *)
Lemma find_finalize d s :
  Forall entry_positive d ->
  find (fun sm => String.eqb (id sm) s) (flat_map finalize d) =
  match stats_of s d with Some st => hd_error (finalize (s, st)) | None => None end.
Proof.
  induction 1 as [|[k st] d Hst Hd IH]; [reflexivity|].
  unfold entry_positive in Hst; simpl in Hst. cbn [flat_map stats_of].
  unfold finalize at 1. apply Nat.ltb_lt in Hst. rewrite Hst. cbn [app find id].
  destruct (String.eqb_spec k s) as [->|_]; [|exact IH].
  unfold finalize. now rewrite Hst.
Qed.

Lemma find_perm_nodup {X} (key : X -> string) s l l' :
  NoDup (map key l) -> Permutation l l' ->
  find (fun a => String.eqb (key a) s) l = find (fun a => String.eqb (key a) s) l'.
Proof.
  intros Hnd Hp. induction Hp as [|x l l' Hp IH|x y l|l l' l'' H1 IH1 H2 IH2]; simpl in *.
  - reflexivity.
  - inversion Hnd; subst. now rewrite IH.
  - inversion Hnd as [|? ? Hy Hnd']; subst. inversion Hnd'; subst.
    destruct (String.eqb_spec (key y) s), (String.eqb_spec (key x) s); try reflexivity.
    exfalso. apply Hy. left. congruence.
  - rewrite IH1 by exact Hnd. apply IH2.
    eapply Permutation_NoDup; [apply Permutation_map; exact H1|exact Hnd].
Qed.

(** The summary of speaker [s], positions apart, is determined by the
    track keys of the faces of [s], in order. *)
Lemma summary_track faces1 faces2 k1 k2 s :
  map track_key (filter (speaker_is s) faces1) = map track_key (filter (speaker_is s) faces2) ->
  option_map summary_key (find (fun sm => String.eqb (id sm) s) (create_speaker_summary faces1 k1)) =
  option_map summary_key (find (fun sm => String.eqb (id sm) s) (create_speaker_summary faces2 k2)).
Proof.
  intro H. unfold create_speaker_summary.
  assert (Hnd : forall faces, NoDup (map id (flat_map finalize (speaker_stats faces)))).
  { intro faces. rewrite ids_finalize by apply positive_speaker_stats.
    rewrite keys_speaker_stats. apply speaker_order_nodup. }
  rewrite <- !(find_perm_nodup id s _ _ (Hnd _) (Permutation_sym (sort_by_perm _ _))).
  rewrite !find_finalize by apply positive_speaker_stats. rewrite !stats_of_speaker_stats.
  destruct (filter (speaker_is s) faces1) as [|g1 gs1], (filter (speaker_is s) faces2) as [|g2 gs2];
    simpl in H; try discriminate; [reflexivity|].
  assert (Hhd : forall l, option_map summary_key (hd_error l) = hd_error (map summary_key l))
    by (intros [|]; reflexivity).
  rewrite !Hhd. f_equal. apply summary_key_finalize, stats_key_fold; [exact H|reflexivity].
Qed.

(** ** Properties of the summary *)

(** C23. The summary has exactly one entry per speaker that appears in
    the faces: its ids are the distinct speaker ids, each once. *)
Theorem summary_ids faces known_names :
  Permutation (map id (create_speaker_summary faces known_names)) (speaker_order faces) /\
  NoDup (map id (create_speaker_summary faces known_names)).
Proof.
  assert (Hp : Permutation (map id (create_speaker_summary faces known_names))
                           (speaker_order faces)).
  { unfold create_speaker_summary. rewrite (Permutation_map id (sort_by_perm _ _)).
    rewrite ids_finalize by apply positive_speaker_stats.
    now rewrite keys_speaker_stats. }
  split; [exact Hp|]. eapply Permutation_NoDup; [symmetry; exact Hp|].
  apply speaker_order_nodup.
Qed.

Lemma In_summary_ids faces known_names s :
  In s (speaker_order faces) -> In s (map id (create_speaker_summary faces known_names)).
Proof.
  intro H. unfold create_speaker_summary.
  apply (Permutation_in _ (Permutation_sym (Permutation_map id (sort_by_perm _ _)))).
  rewrite ids_finalize by apply positive_speaker_stats. now rewrite keys_speaker_stats.
Qed.

Lemma In_finalize_entry sm d :
  In sm (flat_map finalize d) ->
  exists s st, In (s, st) d /\ (0 < total_appearances st)%nat /\ finalize (s, st) = [sm].
Proof.
  intro H. apply in_flat_map in H as [[s st] [Hin Hsm]].
  exists s, st. unfold finalize in *.
  destruct (0 <? total_appearances st)%nat eqn:E; [|contradiction].
  apply Nat.ltb_lt in E. destruct Hsm as [<-|[]]. auto.
Qed.

(** C10. The entry of each speaker [s]: its count is the number of faces
    of [s]; its first and last sightings bound every timestamp of [s]; the
    first sighting is a timestamp of [s] and the last one is a timestamp
    of [s] or the initial 0; its screen time is [last_seen - first_seen]. *)
Theorem summary_of_speaker faces known_names s :
  In s (speaker_order faces) ->
  exists sm, In sm (create_speaker_summary faces known_names) /\ id sm = s /\
    appearances sm = List.length (filter (speaker_is s) faces) /\
    (forall f, In f faces -> speakerId f = s ->
       (first_seen sm <= timestamp f <= last_seen sm)%Q) /\
    (exists f, In f faces /\ speakerId f = s /\ first_seen sm = timestamp f) /\
    (last_seen sm = 0%Q \/ exists f, In f faces /\ speakerId f = s /\ last_seen sm = timestamp f) /\
    screen_time sm = (last_seen sm - first_seen sm)%Q.
Proof.
  intro Hs. apply In_speaker_order in Hs as [f0 [Hf0 Hs0]].
  pose proof (stats_of_speaker_stats s faces) as Hst.
  assert (Hin : forall f, In f (filter (speaker_is s) faces) <-> In f faces /\ speakerId f = s).
  { intro f. rewrite filter_In. unfold speaker_is. now rewrite String.eqb_eq. }
  destruct (filter (speaker_is s) faces) as [|g gs] eqn:Ef.
  { exfalso. apply (proj2 (Hin f0)). auto. }
  destruct (first_fold gs (stats_add stats_default g) (timestamp g) eq_refl)
    as [a [Ha [Hag [Hall Hwho]]]].
  destruct (last_fold (g :: gs) stats_default) as [_ [Hlast Hlwho]].
  apply stats_of_In in Hst.
  set (st := fold_left stats_add gs (stats_add stats_default g)) in *.
  change (fold_left stats_add (g :: gs) stats_default) with st in Hst, Hlast, Hlwho.
  assert (Htot : total_appearances st = S (List.length gs)) by (unfold st; rewrite total_fold; reflexivity).
  eexists. split; [|split; [|split; [|split; [|split; [|split]]]]].
  - unfold create_speaker_summary. apply In_sort_by, in_flat_map.
    exists (s, st). split; [exact Hst|]. simpl. rewrite Htot, Ha. simpl. left. reflexivity.
  - reflexivity.
  - simpl. rewrite ?Htot. reflexivity.
  - intros f Hf Hfs. assert (Hff : In f (g :: gs)) by (apply Hin; auto).
    simpl. split.
    + destruct Hff as [<-|Hff]; [exact Hag|]. apply Hall. exact Hff.
    + apply Hlast. exact Hff.
  - simpl. destruct Hwho as [->|[f [Hf ->]]].
    + exists g. destruct (proj1 (Hin g) (or_introl eq_refl)). auto.
    + exists f. destruct (proj1 (Hin f) (or_intror Hf)). auto.
  - simpl. destruct Hlwho as [->|[f [Hf ->]]]; [now left|right].
    exists f. destruct (proj1 (Hin f) Hf). auto.
  - reflexivity.
Qed.

(** Every entry's last sighting is at least 0 and at least its first. *)
Definition times_ok (st : stats) : Prop :=
  (0 <= last_appearance st)%Q /\
  (forall a, first_appearance st = Some a -> (a <= last_appearance st)%Q).

Lemma times_ok_add st f : st = stats_default \/ times_ok st -> times_ok (stats_add st f).
Proof.
  intro H. destruct (py_max_q_ge (last_appearance st) (timestamp f)) as [H1 H2].
  assert (Hok : times_ok st) by (destruct H as [->|H]; [split; [apply Qle_refl|discriminate]|exact H]).
  destruct Hok as [H0 Hfirst]. split; simpl; [eapply Qle_trans; eassumption|].
  intros a Ha. injection Ha as <-. unfold min_first.
  destruct (first_appearance st) as [b|] eqn:Eb; [|exact H2].
  destruct (py_min_q_le b (timestamp f)) as [H3 _].
  eapply Qle_trans; [exact H3|]. eapply Qle_trans; [apply Hfirst; reflexivity|exact H1].
Qed.

(** C25. Screen time is never negative. *)
Theorem screen_time_nonneg faces known_names sm :
  In sm (create_speaker_summary faces known_names) -> (0 <= screen_time sm)%Q.
Proof.
  unfold create_speaker_summary. intro H. apply In_sort_by, In_finalize_entry in H
    as [s [st [Hin [_ Hfin]]]].
  pose proof (Forall_speaker_stats times_ok times_ok_add faces) as Hall.
  eapply Forall_forall in Hall; [|exact Hin]. destruct Hall as [H0 Hfirst]. simpl in Hfirst.
  unfold finalize in Hfin. destruct (0 <? total_appearances st)%nat; [|discriminate].
  injection Hfin as <-. simpl. destruct (first_appearance st) as [a|].
  - apply (proj1 (Qle_minus_iff a _)). now apply Hfirst.
  - apply (proj1 (Qle_minus_iff 0 _)). exact H0.
Qed.

Lemma sum_totals_update sid f d :
  list_sum (map (fun e => total_appearances (snd e)) (stats_update sid f d)) =
  S (list_sum (map (fun e => total_appearances (snd e)) d)).
Proof.
  induction d as [|[k st] d IH]; simpl; [reflexivity|].
  destruct (String.eqb k sid); simpl; [reflexivity|]. rewrite IH. lia.
Qed.

Lemma appearances_finalize d :
  Forall entry_positive d ->
  map appearances (flat_map finalize d) = map (fun e => total_appearances (snd e)) d.
Proof.
  induction 1 as [|[k st] d Hst Hd IH]; simpl; [reflexivity|].
  unfold entry_positive in Hst; simpl in Hst.
  apply Nat.ltb_lt in Hst. rewrite Hst. simpl. now f_equal.
Qed.

(** C24. The appearance counts add up to the number of faces. *)
Theorem appearances_total faces known_names :
  list_sum (map appearances (create_speaker_summary faces known_names)) = List.length faces.
Proof.
  unfold create_speaker_summary.
  rewrite (Permutation_list_sum (Permutation_map appearances (sort_by_perm _ _))).
  rewrite appearances_finalize by apply positive_speaker_stats.
  unfold speaker_stats. change (List.length faces) with
    (list_sum (map (fun e => total_appearances (snd e)) (@nil (string * stats))) + List.length faces)%nat.
  generalize (@nil (string * stats)).
  induction faces as [|f faces IH]; intro d; simpl; [lia|].
  rewrite IH, sum_totals_update. lia.
Qed.

(** ** The ranking *)

Lemma screen_time_gt_irrefl a : screen_time_gt a a = false.
Proof. apply qltb_false_iff, Qle_refl. Qed.

Lemma screen_time_gt_trans a b c :
  screen_time_gt a b = true -> screen_time_gt b c = true -> screen_time_gt a c = true.
Proof. unfold screen_time_gt. rewrite !qltb_iff. intros H1 H2. eapply Qlt_trans; eassumption. Qed.

Lemma screen_time_gt_neg_trans a b c :
  screen_time_gt a b = false -> screen_time_gt b c = false -> screen_time_gt a c = false.
Proof. unfold screen_time_gt. rewrite !qltb_false_iff. intros H1 H2. eapply Qle_trans; eassumption. Qed.

#[export] Hint Resolve screen_time_gt_irrefl screen_time_gt_trans screen_time_gt_neg_trans : magic.

Lemma sorted_screen_time l :
  Sorted (le_by screen_time_gt) l -> Sorted (fun a b => (screen_time b <= screen_time a)%Q) l.
Proof. apply sorted_impl. intros a b. apply qltb_false_iff. Qed.

(** C9. Ranking: the summary is ordered by screen time, largest first,
    and entries with the same screen time keep the first-seen order of
    their speakers (CPython's sort with [reverse=True] is stable). *)
Theorem summary_ranked faces known_names :
  Sorted (fun a b => (screen_time b <= screen_time a)%Q)
         (create_speaker_summary faces known_names) /\
  map id (flat_map finalize (speaker_stats faces)) = speaker_order faces /\
  (forall k, filter (key_equiv screen_time_gt k) (create_speaker_summary faces known_names) =
             filter (key_equiv screen_time_gt k) (flat_map finalize (speaker_stats faces))).
Proof.
  split; [|split].
  - apply sorted_screen_time, sort_by_sorted; eauto with magic.
  - rewrite ids_finalize by apply positive_speaker_stats. apply keys_speaker_stats.
  - intro k. apply sort_by_stable; eauto with magic.
Qed.

Lemma le_by_screen_time a b :
  (screen_time b <= screen_time a)%Q -> le_by screen_time_gt a b.
Proof. intro H. unfold le_by, screen_time_gt. now apply qltb_false_iff. Qed.

(** Refinement of CPython's sort: any list of the finalised entries
    that is ordered by screen time (largest first) and keeps entries
    with equal screen time in their first-seen order is exactly
    [create_speaker_summary]. The model's insertion sort therefore
    computes what TimSort computes. *)
Theorem summary_sort_independent faces known_names out :
  Sorted (fun a b => (screen_time b <= screen_time a)%Q) out ->
  (forall k, filter (key_equiv screen_time_gt k) out =
             filter (key_equiv screen_time_gt k) (flat_map finalize (speaker_stats faces))) ->
  out = create_speaker_summary faces known_names.
Proof.
  intros Hs Hf. apply sort_by_unique; eauto with magic.
  eapply sorted_impl; [|exact Hs]. intros a b. apply le_by_screen_time.
Qed.

(** Two speakers: [speaker_1] seen at 0s and 2s, [speaker_2] at 0s and
    5s. *)
Definition ranking_faces : list face :=
  [face_data 0 10 10 20 20 50%float "speaker_1"; face_data 0 60 10 20 20 50%float "speaker_2";
   face_data 2 10 10 20 20 50%float "speaker_1"; face_data 5 60 10 20 20 50%float "speaker_2"].

(** The example of the specification: a speaker with 5s of screen
    time is ranked before one with 2s, although it was seen second. *)
Example ranking_example :
  map (fun sm => (id sm, screen_time sm)) (create_speaker_summary ranking_faces []) =
  [("speaker_2"%string, 5 - 0); ("speaker_1"%string, 2 - 0)]%Q.
Proof. vm_compute. reflexivity. Qed.

Lemma summary_of_speaker_witness :
  In "speaker_1"%string (speaker_order ranking_faces) /\
  exists sm, In sm (create_speaker_summary ranking_faces []) /\ id sm = "speaker_1"%string /\
    appearances sm = List.length (filter (speaker_is "speaker_1") ranking_faces) /\
    (forall f, In f ranking_faces -> speakerId f = "speaker_1"%string ->
       (first_seen sm <= timestamp f <= last_seen sm)%Q) /\
    (exists f, In f ranking_faces /\ speakerId f = "speaker_1"%string /\ first_seen sm = timestamp f) /\
    (last_seen sm = 0%Q \/ exists f, In f ranking_faces /\ speakerId f = "speaker_1"%string /\
                                      last_seen sm = timestamp f) /\
    screen_time sm = (last_seen sm - first_seen sm)%Q.
Proof.
  assert (H : In "speaker_1"%string (speaker_order ranking_faces)) by (vm_compute; left; reflexivity).
  split; [exact H|]. apply (summary_of_speaker ranking_faces [] "speaker_1" H).
Defined.

Definition ranked_first : speaker_summary :=
  hd (mk_summary "" 0 0%float 0 0 0 (0%float, 0%float)) (create_speaker_summary ranking_faces []).

Lemma screen_time_nonneg_witness :
  In ranked_first (create_speaker_summary ranking_faces []) /\ (0 <= screen_time ranked_first)%Q.
Proof.
  assert (H : In ranked_first (create_speaker_summary ranking_faces [])) by (vm_compute; left; reflexivity).
  split; [exact H|]. apply (screen_time_nonneg ranking_faces [] ranked_first H).
Defined.

Lemma summary_sort_independent_witness :
  Sorted (fun a b => (screen_time b <= screen_time a)%Q) (create_speaker_summary ranking_faces []) /\
  create_speaker_summary ranking_faces [] = create_speaker_summary ranking_faces [].
Proof.
  assert (Hs : Sorted (fun a b => (screen_time b <= screen_time a)%Q)
                 (create_speaker_summary ranking_faces [])).
  { vm_compute. repeat constructor; discriminate. }
  split; [exact Hs|].
  apply (summary_sort_independent ranking_faces [] _ Hs).
  intro k. apply sort_by_stable; eauto with magic.
Defined.
