(* ===== verification/Pipeline.v ===== *)
(** * The analysis loop ([detect_faces_in_video])

    src/face_detection.py, lines 9-143, as explicit state passing. The
    capture is the list of frames [cap.read()] yields, with the two
    properties the code reads ([CAP_PROP_FPS], [CAP_PROP_FRAME_COUNT]).
    The Haar detector, the face encoder and the face distance are the
    class [Adapters]. The loop state holds [all_faces], the speaker
    registry, [frame_count] and [processed_frames]. A Python exception that
    escapes the loop is [None]. The JSON write is in [Cli]. *)

From Stdlib Require Import ZArith QArith List String Floats Sorted Permutation Bool Lia.
From S2P Require Import Prelude Sampler Confidence Identity Faces Smoothing Summary.
Import ListNotations.

(** What [face_recognition.face_encodings] does on a face region: a list
    of encodings (possibly empty), or an exception. *)
Inductive encoding_result (Emb : Type) : Type :=
| Encodings (l : list Emb)
| EncodingRaised.
Arguments Encodings {Emb} l.
Arguments EncodingRaised {Emb}.

(** The external collaborators. *)
Class Adapters := {
  Frame : Type;
  Emb : Type;
  (** [frame.shape[:2]]: (height, width). *)
  frame_shape : Frame -> Z * Z;
  (** [face_cascade.detectMultiScale(gray, 1.1, 5, (30, 30))]. *)
  detect_multiscale : Frame -> list (Z * Z * Z * Z);
  (** [face_recognition.face_encodings(rgb_frame[y:y+h, x:x+w], [(0, w, h, 0)])]. *)
  face_encodings : Frame -> Z * Z * Z * Z -> encoding_result Emb;
  (** The metric of [face_recognition.face_distance]. *)
  distance : Emb -> Emb -> Q
}.

(** What [cv2.VideoCapture(video_path)] gives. *)
Record capture (F : Type) := mk_capture {
  is_opened : bool;
  cap_fps : Q;
  cap_frame_count : Q;
  cap_frames : list F
}.
Arguments mk_capture {F}.
Arguments is_opened {F}.
Arguments cap_fps {F}.
Arguments cap_frame_count {F}.
Arguments cap_frames {F}.

Record processing_info := mk_info {
  info_fps : Q;
  frames_processed : nat;
  info_frame_skip : nat
}.

(** The report of lines 127-137. *)
Record report := mk_report {
  video_duration : Q;
  total_faces_detected : nat;
  speakers : list speaker_summary;
  report_faces : list face;
  info : processing_info
}.

(** How [detect_faces_in_video] ends: it returns early on an unopened
    video, raises, or reaches the write of its report. *)
Inductive video_result :=
| NotOpened
| AnalysisRaised
| Analysed (r : report).

Section Loop.
Context `{A : Adapters}.

Record loop_state := mk_state {
  all_faces : list face;
  registry_of : registry Emb;
  frame_count : nat;
  processed_frames : nat
}.

(** Lines 69-109, one detected box. Every exception is caught by the
    [except] of line 108, which leaves the state as it was. *)
Definition process_face (timestamp : Q) (frame : Frame) (st : loop_state)
    (box : Z * Z * Z * Z) : loop_state :=
  let '(x, y, w, h) := box in
  match face_encodings frame box with
  | EncodingRaised => st
  | Encodings [] => st
  | Encodings (face_encoding :: _) =>
      match resolve distance (registry_of st) face_encoding with
      | None => st
      | Some (speaker_id, reg) =>
          let confidence := calculate_face_confidence x y w h (frame_shape frame) in
          mk_state (all_faces st ++ [face_data timestamp x y w h confidence speaker_id])
            reg (frame_count st) (processed_frames st)
      end
  end.

(** Lines 45-116, one frame read. [total_frames] is used by the progress
    line 113, which divides by it every tenth analysed frame. *)
Definition process_frame (fps : Q) (total_frames : Z) (skip : nat)
    (st : loop_state) (frame : Frame) : option loop_state :=
  if negb (is_sampled skip (frame_count st)) then
    Some (mk_state (all_faces st) (registry_of st) (S (frame_count st)) (processed_frames st))
  else
    let timestamp := (inject_Z (Z.of_nat (frame_count st)) / fps)%Q in
    let st' := fold_left (process_face timestamp frame) (detect_multiscale frame) st in
    let processed := S (processed_frames st') in
    if (Nat.eqb (processed mod 10) 0 && Z.eqb total_frames 0)%bool then None
    else Some (mk_state (all_faces st') (registry_of st') (S (frame_count st')) processed).

(** Lines 44-116: the [while True] loop, until [cap.read()] fails. *)
Fixpoint run_loop (fps : Q) (total_frames : Z) (skip : nat) (frames : list Frame)
    (st : loop_state) : option loop_state :=
  match frames with
  | [] => Some st
  | frame :: rest =>
      match process_frame fps total_frames skip st frame with
      | None => None
      | Some st' => run_loop fps total_frames skip rest st'
      end
  end.

Definition loop_init : loop_state := mk_state [] registry_init 0 0.

(** Lines 120-137: the summary of the unsmoothed faces, the smoothed
    faces and the processing info. *)
Definition assemble_report (fps : Q) (total_frames : Z) (skip : nat) (st : loop_state) : report :=
  let duration := (inject_Z total_frames / fps)%Q in
  let speakers := create_speaker_summary (all_faces st) (known_face_names (registry_of st)) in
  let smoothed_faces := smooth_face_tracking (all_faces st) in
  mk_report duration (List.length smoothed_faces) speakers smoothed_faces
    (mk_info fps (processed_frames st) skip).

(** Lines 9-137. A zero [fps] raises [ZeroDivisionError] at line 25. *)
Definition detect_faces_in_video (cap : capture Frame) : video_result :=
  if negb (is_opened cap) then NotOpened
  else
    let fps := cap_fps cap in
    let total_frames := Sampler.py_int (cap_frame_count cap) in
    if Qeq_bool fps 0 then AnalysisRaised
    else
      let skip := frame_skip fps in
      match run_loop fps total_frames skip (cap_frames cap) loop_init with
      | None => AnalysisRaised
      | Some st => Analysed (assemble_report fps total_frames skip st)
      end.

End Loop.

(** ** The registry and the collected faces *)

Lemma speaker_order_snoc l f :
  speaker_order (l ++ [f]) = add_id (speaker_order l) (speakerId f).
Proof. unfold speaker_order. now rewrite fold_left_app. Qed.

Lemma add_id_present ids s : In s ids -> add_id ids s = ids.
Proof.
  intro H. unfold add_id. replace (existsb _ _) with true; [reflexivity|].
  symmetry. apply existsb_exists. exists s. split; [exact H|apply String.eqb_refl].
Qed.

Lemma add_id_absent ids s : ~ In s ids -> add_id ids s = ids ++ [s].
Proof.
  intro H. unfold add_id. replace (existsb _ _) with false; [reflexivity|].
  symmetry. apply not_true_iff_false. rewrite existsb_exists.
  intros [k [Hk Ek]]. apply String.eqb_eq in Ek. subst k. contradiction.
Qed.

Lemma counter_not_registered {E} (r : registry E) :
  registry_wf r -> ~ In (speaker_name (speaker_id_counter r)) (known_face_names r).
Proof.
  intros [_ [Hn Hc]] Hin. rewrite Hn in Hin. apply in_map_iff in Hin as [k [Hk Hin]].
  apply speaker_name_inj in Hk. apply in_seq in Hin. lia.
Qed.

Lemma match_registered {E} (r : registry E) i :
  registry_wf r -> (i < List.length (known_face_encodings r))%nat ->
  In (speaker_name (S i)) (known_face_names r).
Proof.
  intros Hwf Hi. eapply nth_error_In, nth_error_names; [exact Hwf|].
  destruct Hwf as [Hl _]. lia.
Qed.

(** A property of the collected faces and the registry that every
    processed box preserves holds after the whole loop. *)
Section FacesInvariant.
Context `{A : Adapters}.
Variable P : list face -> registry Emb -> Prop.
Hypothesis P_face : forall ts frame st box,
  P (all_faces st) (registry_of st) ->
  P (all_faces (process_face ts frame st box)) (registry_of (process_face ts frame st box)).

Lemma fold_process_face_P ts frame boxes st :
  P (all_faces st) (registry_of st) ->
  P (all_faces (fold_left (process_face ts frame) boxes st))
    (registry_of (fold_left (process_face ts frame) boxes st)).
Proof.
  revert st. induction boxes as [|b boxes IH]; intros st H; simpl; auto.
Qed.

Lemma process_frame_P fps total skip st frame st' :
  P (all_faces st) (registry_of st) ->
  process_frame fps total skip st frame = Some st' -> P (all_faces st') (registry_of st').
Proof.
  intros Hinv H. unfold process_frame in H.
  destruct (negb _); [injection H as <-; exact Hinv|].
  destruct (_ && _)%bool; [discriminate|]. injection H as <-.
  exact (fold_process_face_P _ _ _ _ Hinv).
Qed.

Lemma run_loop_P fps total skip frames st st' :
  P (all_faces st) (registry_of st) ->
  run_loop fps total skip frames st = Some st' -> P (all_faces st') (registry_of st').
Proof.
  revert st. induction frames as [|frame frames IH]; intros st Hinv Hrun; simpl in Hrun.
  - now injection Hrun as <-.
  - destruct (process_frame fps total skip st frame) as [st1|] eqn:E; [|discriminate].
    exact (IH st1 (process_frame_P _ _ _ _ _ _ Hinv E) Hrun).
Qed.

End FacesInvariant.

Section LoopInvariant.
Context `{A : Adapters}.

(** The loop invariant: the registry is well formed and the distinct
    speaker ids of the collected faces, in first-seen order, are the
    registered names. *)
Definition loop_inv (faces : list face) (r : registry Emb) : Prop :=
  registry_wf r /\ speaker_order faces = known_face_names r.

Lemma process_face_inv ts frame st box :
  loop_inv (all_faces st) (registry_of st) ->
  loop_inv (all_faces (process_face ts frame st box)) (registry_of (process_face ts frame st box)).
Proof.
  intros [Hwf Hord]. destruct box as [[[x y] w] h]. unfold process_face.
  destruct (face_encodings frame _) as [[|e es]|]; try (split; assumption).
  destruct (resolve distance (registry_of st) e) as [[sid reg]|] eqn:Hres;
    [|split; assumption].
  apply (resolve_sound distance _ _ _ _ Hwf) in Hres.
  pose proof (resolves_wf distance _ _ _ _ Hwf Hres) as Hwf'.
  split; [exact Hwf'|]. simpl. rewrite speaker_order_snoc, Hord. simpl.
  destruct Hres as [i m Hm _|_].
  - apply add_id_present, match_registered; [exact Hwf|].
    rewrite <- (length_face_distance distance _ e). eapply first_min_length; eassumption.
  - apply add_id_absent, counter_not_registered, Hwf.
Qed.

(** C3. Identities in first-seen order: after the loop, the registry is
    well formed and the distinct speaker ids of the collected faces, in
    order of first appearance, are exactly [speaker_1, ..., speaker_n]
    as registered. Every face names a registered speaker, identifiers are
    numbered from 1 in first-seen order, and none is reused. *)
Theorem run_loop_speaker_order fps total skip frames st :
  run_loop fps total skip frames loop_init = Some st ->
  registry_wf (registry_of st) /\
  speaker_order (all_faces st) = map speaker_name (seq 1 (List.length (known_face_names (registry_of st)))).
Proof.
  intro Hrun.
  assert (H0 : loop_inv [] (@registry_init Emb)) by (split; [apply registry_init_wf|reflexivity]).
  destruct (run_loop_P loop_inv process_face_inv _ _ _ _ loop_init _ H0 Hrun) as [Hwf Hord].
  split; [exact Hwf|]. rewrite Hord. apply Hwf.
Qed.

End LoopInvariant.

(** ** The report *)

Section ReportProperties.
Context `{A : Adapters}.

Definition confidences_ok (faces : list face) (_ : registry Emb) : Prop :=
  Forall (fun f => (0 <=? confidence f)%float = true /\ (confidence f <=? 100)%float = true) faces.

Lemma process_face_confidences ts frame st box :
  confidences_ok (all_faces st) (registry_of st) ->
  confidences_ok (all_faces (process_face ts frame st box)) (registry_of (process_face ts frame st box)).
Proof.
  intro H. destruct box as [[[x y] w] h]. unfold process_face.
  destruct (face_encodings frame _) as [[|e es]|]; try exact H.
  destruct (resolve distance (registry_of st) e) as [[sid reg]|]; [|exact H].
  apply Forall_app. split; [exact H|]. constructor; [|constructor].
  unfold face_data, calculate_face_confidence. simpl. destruct (frame_shape frame). apply clamp_range.
Qed.

(** C4. The report: [total_faces_detected] counts its faces, the faces
    are in chronological order, every face's confidence is within
    [0, 100], and every face's speaker has an entry in [speakers]. *)
Theorem report_wf cap r :
  detect_faces_in_video cap = Analysed r ->
  total_faces_detected r = List.length (report_faces r) /\
  Sorted (fun a b => (timestamp a <= timestamp b)%Q) (report_faces r) /\
  (forall f, In f (report_faces r) ->
     (0 <=? confidence f)%float = true /\ (confidence f <=? 100)%float = true) /\
  (forall f, In f (report_faces r) -> In (speakerId f) (map id (speakers r))).
Proof.
  unfold detect_faces_in_video. destruct (is_opened cap); [|discriminate]. cbn [negb].
  destruct (Qeq_bool _ 0); [discriminate|].
  destruct (run_loop _ _ _ _ _) as [st|] eqn:Hrun; [|discriminate].
  intro H. injection H as <-. unfold assemble_report. cbn [total_faces_detected report_faces speakers].
  pose proof (run_loop_P confidences_ok process_face_confidences _ _ _ _ loop_init _
                (Forall_nil _) Hrun) as Hconf.
  split; [reflexivity|split; [|split]].
  - destruct (all_faces st) as [|f0 fs]; [constructor|].
    apply sorted_le_by_ts, sort_by_sorted; eauto with magic.
  - intros f Hf. apply In_smooth_face_tracking in Hf as [g [Hg Hk]].
    eapply Forall_forall in Hconf; [|exact Hg].
    unfold track_key in Hk. injection Hk as _ _ _ Hc _. rewrite <- Hc. exact Hconf.
  - intros f Hf. apply In_smooth_face_tracking in Hf as [g [Hg Hk]].
    unfold track_key in Hk. injection Hk as _ _ _ _ Hs. rewrite <- Hs.
    apply In_summary_ids, In_speaker_order. eauto.
Qed.

(** The Detection Adapter's contract in the specification: the boxes
    lie inside the frame, so their coordinates and sizes are
    non-negative. *)
Definition boxes_in_frame : Prop :=
  forall frame x y w h, In (x, y, w, h) (detect_multiscale frame) ->
  (0 <= x /\ 0 <= y /\ 0 <= w /\ 0 <= h)%Z.

Lemma fold_process_face_typed ts frame boxes st :
  (0 <= ts)%Q ->
  (forall x y w h, In (x, y, w, h) boxes -> (0 <= x /\ 0 <= y /\ 0 <= w /\ 0 <= h)%Z) ->
  Forall detection_typed (all_faces st) ->
  Forall detection_typed (all_faces (fold_left (process_face ts frame) boxes st)).
Proof.
  revert st. induction boxes as [|[[[x y] w] h] boxes IH]; intros st Hts Hb H; [exact H|].
  cbn [fold_left]. apply IH; [exact Hts|intros; apply Hb; now right|].
  destruct (Hb x y w h (or_introl eq_refl)) as (Hx & Hy & Hw & Hh).
  unfold process_face. destruct (face_encodings frame _) as [[|e es]|]; try exact H.
  destruct (resolve distance (registry_of st) e) as [[sid reg]|]; [|exact H].
  apply Forall_app. split; [exact H|]. constructor; [|constructor].
  unfold detection_typed, face_data, calculate_face_confidence.
  destruct (frame_shape frame) as [fh fw].
  cbn [timestamp Faces.x Faces.y width height confidence center_x center_y].
  repeat split; try assumption; [apply (proj1 (clamp_range _))|apply (proj2 (clamp_range _))].
Qed.

Lemma run_loop_typed fps total skip frames st st' :
  boxes_in_frame -> (0 < fps)%Q ->
  Forall detection_typed (all_faces st) ->
  run_loop fps total skip frames st = Some st' -> Forall detection_typed (all_faces st').
Proof.
  intros Hbox Hfps. revert st. induction frames as [|frame frames IH]; intros st H Hrun; simpl in Hrun.
  - now injection Hrun as <-.
  - destruct (process_frame fps total skip st frame) as [st1|] eqn:E; [|discriminate].
    apply (IH st1); [|exact Hrun]. unfold process_frame in E.
    destruct (negb _); [now injection E as <-|].
    destruct (_ && _)%bool; [discriminate|]. injection E as <-. cbn [all_faces].
    apply fold_process_face_typed; [|intros x y w h; apply Hbox|exact H].
    apply Qle_shift_div_l; [exact Hfps|]. rewrite Qmult_0_l.
    unfold Qle; simpl; lia.
Qed.

(** C15. Type of the report's faces: when the detector keeps to its
    contract and the capture reports a positive frame rate, every face of
    the report is a Detection of the specification's data model: a
    non-negative timestamp and box, a confidence within [0, 100], and
    its centre derived from its (smoothed) position. *)
Theorem report_faces_typed cap r :
  boxes_in_frame -> (0 < cap_fps cap)%Q ->
  detect_faces_in_video cap = Analysed r -> Forall detection_typed (report_faces r).
Proof.
  intros Hbox Hfps. unfold detect_faces_in_video. destruct (is_opened cap); [|discriminate].
  cbn [negb]. destruct (Qeq_bool _ 0); [discriminate|].
  destruct (run_loop _ _ _ _ _) as [st|] eqn:Hrun; [|discriminate].
  intro H. injection H as <-. unfold assemble_report. cbn [report_faces].
  apply smooth_face_tracking_closed; [exact smooth_one_typed|].
  exact (run_loop_typed _ _ _ _ loop_init _ Hbox Hfps (Forall_nil _) Hrun).
Qed.

End ReportProperties.

(** ** Frame accounting and the progress line *)

Section Counting.
Context `{A : Adapters}.

Lemma fold_process_face_counts ts frame boxes st :
  frame_count (fold_left (process_face ts frame) boxes st) = frame_count st /\
  processed_frames (fold_left (process_face ts frame) boxes st) = processed_frames st.
Proof.
  revert st. induction boxes as [|[[[x y] w] h] boxes IH]; intro st; cbn [fold_left]; [auto|].
  destruct (IH (process_face ts frame st (x, y, w, h))) as [-> ->].
  unfold process_face. destruct (face_encodings _ _) as [[|e es]|]; auto.
  destruct (resolve _ _ _) as [[? ?]|]; auto.
Qed.

(** The number of sampled indices in [[c, c + n)]. *)
Definition sampled_between (skip c n : nat) : nat :=
  List.length (filter (is_sampled skip) (seq c n)).

Lemma sampled_between_cons skip c n :
  sampled_between skip c (S n) =
  ((if is_sampled skip c then 1 else 0) + sampled_between skip (S c) n)%nat.
Proof. unfold sampled_between. cbn [seq filter]. now destruct (is_sampled skip c). Qed.

Lemma run_loop_none_gen fps total skip frames st :
  run_loop fps total skip frames st = None <->
  total = 0%Z /\
  exists j, (processed_frames st < j <= processed_frames st +
               sampled_between skip (frame_count st) (List.length frames))%nat /\
            (j mod 10 = 0)%nat.
Proof.
  revert st. induction frames as [|frame frames IH]; intro st.
  - cbn [run_loop]. split; [discriminate|]. intros [_ [j [Hj _]]].
    unfold sampled_between in Hj. simpl in Hj. lia.
  - cbn [run_loop List.length]. rewrite sampled_between_cons. unfold process_frame.
    destruct (is_sampled skip (frame_count st)) eqn:Es; cbn [negb].
    + destruct (fold_process_face_counts (inject_Z (Z.of_nat (frame_count st)) / fps)%Q frame
                  (detect_multiscale frame) st) as [Hc Hp].
      set (st' := fold_left _ _ st) in *.
      destruct (Nat.eqb_spec (S (processed_frames st') mod 10) 0) as [H10|H10];
        destruct (Z.eqb_spec total 0) as [Ht|Ht]; cbn [andb].
      * split; [intros _|reflexivity]. split; [exact Ht|]. exists (S (processed_frames st)).
        rewrite <- Hp. split; [lia|exact H10].
      * rewrite IH. cbn [frame_count processed_frames]. split; intros [H _]; contradiction.
      * rewrite IH. cbn [frame_count processed_frames]. rewrite Hc, Hp.
        split; intros [H [j [Hj Hm]]]; split; auto; exists j; split; auto; [lia|].
        assert (j <> S (processed_frames st)) by (intros ->; rewrite <- Hp in Hm; contradiction).
        lia.
      * rewrite IH. split; intros [H _]; contradiction.
    + rewrite IH. reflexivity.
Qed.

(** One iteration of the loop reads one frame and analyses it when it
    is sampled. *)
Lemma process_frame_counts fps total skip st frame st' :
  process_frame fps total skip st frame = Some st' ->
  frame_count st' = S (frame_count st) /\
  processed_frames st' =
    (processed_frames st + if is_sampled skip (frame_count st) then 1 else 0)%nat.
Proof.
  unfold process_frame. destruct (is_sampled skip (frame_count st)); cbn [negb].
  - destruct (fold_process_face_counts (inject_Z (Z.of_nat (frame_count st)) / fps)%Q frame
                (detect_multiscale frame) st) as [Hc Hp].
    destruct (_ && _)%bool; [discriminate|]. intro H. injection H as <-. simpl. lia.
  - intro H. injection H as <-. simpl. lia.
Qed.

Lemma run_loop_some_gen fps total skip frames st st' :
  run_loop fps total skip frames st = Some st' ->
  frame_count st' = (frame_count st + List.length frames)%nat /\
  processed_frames st' = (processed_frames st +
    sampled_between skip (frame_count st) (List.length frames))%nat.
Proof.
  revert st. induction frames as [|frame frames IH]; intros st Hrun.
  - cbn [run_loop] in Hrun. injection Hrun as <-. unfold sampled_between. simpl. lia.
  - cbn [run_loop List.length] in *. rewrite sampled_between_cons.
    destruct (process_frame fps total skip st frame) as [st1|] eqn:E; [|discriminate].
    destruct (process_frame_counts _ _ _ _ _ _ E) as [Hc Hp].
    destruct (IH _ Hrun) as [Hc' Hp']. rewrite Hc', Hp', Hc, Hp. lia.
Qed.

(** C13. The loop fails exactly when the container reports a frame
    count of 0 and at least ten frames are analysed: the progress line
    divides by [total_frames] at every tenth analysed frame, and the
    [ZeroDivisionError] escapes the loop. With a nonzero frame count the
    loop always completes. *)
Theorem run_loop_raises_iff fps total skip frames :
  run_loop fps total skip frames loop_init = None <->
  total = 0%Z /\ (10 <= List.length (sampled_frames skip (List.length frames)))%nat.
Proof.
  rewrite run_loop_none_gen. cbn [processed_frames frame_count loop_init].
  unfold sampled_between, sampled_frames.
  split; intros [Ht H]; split; auto.
  - destruct H as [j [Hj Hm]]. pose proof (Nat.div_mod_eq j 10) as Hd.
    rewrite Hm in Hd. lia.
  - exists 10%nat. split; [lia|reflexivity].
Qed.

(** C26. Frame accounting: a completed loop has read every frame and
    analysed exactly the sampled ones, [processed_frames] being their
    number [ceil(n / frame_skip)]. *)
Theorem run_loop_counts fps total skip frames st :
  (1 <= skip)%nat ->
  run_loop fps total skip frames loop_init = Some st ->
  frame_count st = List.length frames /\
  processed_frames st = ceil_div (List.length frames) skip.
Proof.
  intros Hs Hrun. apply run_loop_some_gen in Hrun. simpl in Hrun.
  split; [lia|]. destruct Hrun as [_ ->].
  unfold sampled_between. fold (sampled_frames skip (List.length frames)).
  apply length_sampled_frames, Hs.
Qed.

End Counting.

(** ** Chronology and the round trip of the statistics *)

Section Chronology.
Context `{A : Adapters}.

(** The faces are collected in chronological order: each analysed frame
    appends faces stamped [frame_count / fps], and [frame_count] grows. *)
Definition chrono (fps : Q) (st : loop_state) : Prop :=
  Sorted (fun a b => (timestamp a <= timestamp b)%Q) (all_faces st) /\
  Forall (fun f => (timestamp f <= inject_Z (Z.of_nat (frame_count st)) / fps)%Q) (all_faces st).

Lemma fold_process_face_chrono ts frame boxes st :
  Sorted (fun a b => (timestamp a <= timestamp b)%Q) (all_faces st) ->
  Forall (fun f => (timestamp f <= ts)%Q) (all_faces st) ->
  Sorted (fun a b => (timestamp a <= timestamp b)%Q) (all_faces (fold_left (process_face ts frame) boxes st)) /\
  Forall (fun f => (timestamp f <= ts)%Q) (all_faces (fold_left (process_face ts frame) boxes st)).
Proof.
  revert st. induction boxes as [|[[[x y] w] h] boxes IH]; intros st Hs Hb; [auto|].
  cbn [fold_left]. apply IH; unfold process_face;
    destruct (face_encodings frame _) as [[|e es]|]; try assumption;
    destruct (resolve distance (registry_of st) e) as [[sid reg]|]; try assumption; cbn [all_faces].
  - apply sorted_snoc; [exact Hs|]. intros g Hg. eapply Forall_forall in Hb; [exact Hb|exact Hg].
  - apply Forall_app. split; [exact Hb|]. repeat constructor. apply Qle_refl.
Qed.

Lemma run_loop_chrono fps total skip frames st st' :
  (0 < fps)%Q -> chrono fps st -> run_loop fps total skip frames st = Some st' -> chrono fps st'.
Proof.
  intro Hfps. revert st. induction frames as [|frame frames IH]; intros st [Hs Hb] Hrun; simpl in Hrun.
  - injection Hrun as <-. split; assumption.
  - destruct (process_frame fps total skip st frame) as [st1|] eqn:E; [|discriminate].
    apply (IH st1); [|exact Hrun].
    assert (Hmono : (inject_Z (Z.of_nat (frame_count st)) / fps <=
                     inject_Z (Z.of_nat (S (frame_count st))) / fps)%Q).
    { apply Qmult_le_compat_r; [|apply Qinv_le_0_compat, Qlt_le_weak, Hfps].
      rewrite <- Zle_Qle. lia. }
    destruct (process_frame_counts _ _ _ _ _ _ E) as [Hc _].
    unfold chrono. rewrite Hc. unfold process_frame in E. destruct (negb _).
    + injection E as <-. split; [exact Hs|]. cbn [all_faces].
      eapply Forall_impl; [|exact Hb]. intros f Hf. exact (Qle_trans _ _ _ Hf Hmono).
    + destruct (_ && _)%bool; [discriminate|]. injection E as <-. cbn [all_faces].
      destruct (fold_process_face_chrono _ frame (detect_multiscale frame) st Hs Hb) as [Hs' Hb'].
      split; [exact Hs'|]. eapply Forall_impl; [|exact Hb']. intros f Hf. exact (Qle_trans _ _ _ Hf Hmono).
Qed.

(** C18. Round trip of the speaker statistics, in the form the code
    satisfies. Feeding the report's faces back to
    [create_speaker_summary] gives, for every speaker, the same id,
    appearances, average confidence, first and last sightings and
    screen time as the report's [speakers]. Only [avg_position] can
    differ, because the report's faces are the smoothed ones
    ([report_speakers_not_from_faces]). *)
Theorem summary_roundtrip cap r s :
  (0 < cap_fps cap)%Q -> detect_faces_in_video cap = Analysed r ->
  option_map summary_key
    (find (fun sm => String.eqb (id sm) s) (create_speaker_summary (report_faces r) [])) =
  option_map summary_key (find (fun sm => String.eqb (id sm) s) (speakers r)).
Proof.
  intro Hfps. unfold detect_faces_in_video. destruct (is_opened cap); [|discriminate].
  cbn [negb]. destruct (Qeq_bool _ 0); [discriminate|].
  destruct (run_loop _ _ _ _ _) as [st|] eqn:Hrun; [|discriminate].
  intro H. injection H as <-. unfold assemble_report. cbn [report_faces speakers].
  destruct (run_loop_chrono _ _ _ _ loop_init _ Hfps (conj (Sorted_nil _) (Forall_nil _)) Hrun)
    as [Hs _].
  apply summary_track, track_speaker_smooth.
  apply (sorted_impl _ _ _ (fun a b => proj2 (le_by_ts a b)) Hs).
Qed.

End Chronology.

(** ** A video of one person *)

(** Faces of one speaker only: a speaker order and a statistics
    dictionary with a single entry. *)
Lemma speaker_order_single s faces :
  faces <> [] -> Forall (fun f => speakerId f = s) faces -> speaker_order faces = [s].
Proof.
  intros Hne Hall. destruct faces as [|f fs]; [contradiction|]. apply Forall_cons_iff in Hall as [Hf Hfs].
  unfold speaker_order. cbn [fold_left]. rewrite Hf. unfold add_id at 2. cbn.
  clear Hne Hf. induction Hfs as [|g gs Hg _ IH]; [reflexivity|].
  cbn [fold_left]. rewrite Hg, add_id_present by (left; reflexivity). exact IH.
Qed.

Lemma speaker_stats_single s faces :
  faces <> [] -> Forall (fun f => speakerId f = s) faces ->
  speaker_stats faces = [(s, fold_left stats_add faces stats_default)].
Proof.
  intros Hne Hall. destruct faces as [|f fs]; [contradiction|]. apply Forall_cons_iff in Hall as [Hf Hfs].
  unfold speaker_stats. cbn [fold_left stats_update]. generalize (stats_add stats_default f).
  rewrite Hf. clear Hne Hf. induction Hfs as [|g gs Hg _ IH]; intro st; [reflexivity|].
  cbn [fold_left stats_update]. rewrite Hg, String.eqb_refl. apply IH.
Qed.

Section OnePerson.
Context `{A : Adapters}.

(** Every detected box yields an encoding, and the encodings of any two
    boxes are within the tolerance of each other: the video shows one
    person. *)
Hypothesis encodes : forall frame box, exists e es, face_encodings frame box = Encodings (e :: es).
Hypothesis same_person : forall frame box frame' box' e es e' es',
  face_encodings frame box = Encodings (e :: es) ->
  face_encodings frame' box' = Encodings (e' :: es') -> distance e e' <= tolerance.

Definition one_speaker (faces : list face) (reg : registry Emb) : Prop :=
  (faces = [] /\ reg = registry_init) \/
  (exists e1 frame box es, face_encodings frame box = Encodings (e1 :: es) /\
     reg = mk_registry [e1] [speaker_name 1] 2 /\ faces <> [] /\
     Forall (fun f => speakerId f = speaker_name 1) faces).

Lemma process_face_one_speaker ts frame st box :
  one_speaker (all_faces st) (registry_of st) ->
  one_speaker (all_faces (process_face ts frame st box)) (registry_of (process_face ts frame st box)).
Proof.
  intro H. destruct box as [[[x y] w] h]. unfold process_face.
  destruct (encodes frame (x, y, w, h)) as (e & es & He). rewrite He.
  right. destruct H as [[Hf Hr]|(e1 & fr1 & b1 & es1 & He1 & Hr & Hne & Hall)].
  - rewrite Hr. cbn. exists e, frame, (x, y, w, h), es. rewrite Hf.
    repeat split; [exact He|discriminate|repeat constructor].
  - rewrite Hr. unfold resolve, identify_speaker, compare_faces, face_distance. cbn [map known_face_encodings known_face_names speaker_id_counter].
    replace (Qle_bool (distance e1 e) tolerance) with true
      by (symmetry; apply Qle_bool_iff; exact (same_person _ _ _ _ _ _ _ _ He1 He)).
    cbn. exists e1, fr1, b1, es1.
    repeat split; [exact He1|destruct (all_faces st); [contradiction|discriminate]|].
    apply Forall_app. split; [exact Hall|repeat constructor].
Qed.

(** C19. One person, one speaker (the specification's end-to-end
    scenario, for any video): when every detected face encodes to
    vectors of a single person, a run that detects a face reports
    exactly one speaker, [speaker_1]. Every face of the report carries
    that id, and its appearance count is the number of faces in the
    report. *)
Theorem one_person_one_speaker cap r :
  detect_faces_in_video cap = Analysed r -> report_faces r <> [] ->
  map id (speakers r) = [speaker_name 1] /\
  map appearances (speakers r) = [total_faces_detected r] /\
  Forall (fun f => speakerId f = speaker_name 1) (report_faces r).
Proof.
  unfold detect_faces_in_video. destruct (is_opened cap); [|discriminate].
  cbn [negb]. destruct (Qeq_bool _ 0); [discriminate|].
  destruct (run_loop _ _ _ _ _) as [st|] eqn:Hrun; [|discriminate].
  intros H Hne. injection H as <-. unfold assemble_report in *. cbn [report_faces speakers total_faces_detected] in *.
  destruct (run_loop_P one_speaker process_face_one_speaker _ _ _ _ loop_init _
              (or_introl (conj eq_refl eq_refl)) Hrun)
    as [[Hf _]|(e1 & fr1 & b1 & es1 & _ & _ & Hfne & Hall)].
  { exfalso. apply Hne. rewrite Hf. reflexivity. }
  rewrite length_smooth_face_tracking. unfold create_speaker_summary.
  rewrite (speaker_stats_single _ _ Hfne Hall). cbn [flat_map]. unfold finalize.
  rewrite total_fold. cbn [total_appearances stats_default].
  destruct (all_faces st) as [|f0 fs] eqn:Ef; [contradiction|].
  split; [reflexivity|split; [reflexivity|]].
  apply Forall_forall. intros f Hf. apply In_smooth_face_tracking in Hf as [g [Hg Hk]].
  injection Hk as _ _ _ _ Hs. rewrite <- Hs. eapply Forall_forall in Hall; [exact Hall|exact Hg].
Qed.

End OnePerson.

(** ** Synthetic videos *)

(** A 640x480 video whose frame [i] is its index. A face is detected
    in the frames [i] with [present i], at [box i], and every face
    encodes to the same point. *)
Definition synthetic (present : nat -> bool) (box : nat -> Z * Z * Z * Z) : Adapters :=
  {| Frame := nat;
     Emb := Q;
     frame_shape := fun _ => (480%Z, 640%Z);
     detect_multiscale := fun i => if present i then [box i] else [];
     face_encodings := fun _ _ => Encodings [0%Q];
     distance := line_distance |}.

(** The specification's end-to-end scenario: 10 seconds at 10 fps, one
    face at a fixed position in frames 0-49 and none afterwards. *)
Definition still_face : Adapters :=
  synthetic (fun i => Nat.ltb i 50) (fun _ => (270%Z, 190%Z, 100%Z, 100%Z)).

Definition ten_second_video : capture nat := mk_capture true 10 100 (seq 0 100).

Definition still_face_final : loop_state :=
  match run_loop (A := still_face) 10 100 5 (seq 0 100) loop_init with
  | Some st => st
  | None => loop_init
  end.

Lemma run_loop_speaker_order_witness :
  run_loop (A := still_face) 10 100 5 (seq 0 100) loop_init = Some still_face_final /\
  registry_wf (registry_of still_face_final) /\
  speaker_order (all_faces still_face_final) =
    map speaker_name (seq 1 (List.length (known_face_names (registry_of still_face_final)))).
Proof.
  split; [vm_compute; reflexivity|].
  apply (run_loop_speaker_order (A := still_face) 10 100 5 (seq 0 100)).
  vm_compute. reflexivity.
Defined.

Lemma run_loop_counts_witness :
  (1 <= 5)%nat /\
  run_loop (A := still_face) 10 100 5 (seq 0 100) loop_init = Some still_face_final /\
  frame_count still_face_final = 100%nat /\
  processed_frames still_face_final = ceil_div 100 5.
Proof.
  split; [lia|]. split; [vm_compute; reflexivity|].
  apply (run_loop_counts (A := still_face) 10 100 5 (seq 0 100)); [lia|].
  vm_compute. reflexivity.
Defined.

(** The specification's end-to-end example, as the code runs it:
    [frame_skip] is 5, twenty frames are analysed, and the face is seen
    in the ten of them below frame 50. The report has one speaker with
    10 appearances and 4.5 s of screen time. (The specification
    announces 20 appearances and about 9.5 s.) *)
Example end_to_end_still_face :
  match detect_faces_in_video (A := still_face) ten_second_video with
  | Analysed r =>
      (map (fun sm => (id sm, appearances sm, Qeq_bool (screen_time sm) (9 # 2))) (speakers r),
       frames_processed (info r), info_frame_skip (info r), total_faces_detected r)
  | _ => ([], 0%nat, 0%nat, 0%nat)
  end = ([("speaker_1"%string, 10%nat, true)], 20%nat, 5%nat, 10%nat).
Proof. vm_compute. reflexivity. Qed.

Definition still_face_report : report :=
  match detect_faces_in_video (A := still_face) ten_second_video with
  | Analysed r => r
  | _ => mk_report 0 0 [] [] (mk_info 0 0 0)
  end.

Lemma report_wf_witness :
  detect_faces_in_video (A := still_face) ten_second_video = Analysed still_face_report /\
  total_faces_detected still_face_report = List.length (report_faces still_face_report).
Proof.
  assert (H : detect_faces_in_video (A := still_face) ten_second_video = Analysed still_face_report)
    by (vm_compute; reflexivity).
  split; [exact H|]. exact (proj1 (report_wf (A := still_face) _ _ H)).
Defined.

(** A face that jumps right for one analysed frame. *)
Definition jitter_face : Adapters :=
  synthetic (fun i => Nat.ltb i 15)
    (fun i => (if Nat.eqb i 5 then 130%Z else 100%Z, 190%Z, 100%Z, 100%Z)).

Definition jitter_video : capture nat := mk_capture true 10 15 (seq 0 15).

(** The report's speaker statistics are computed from the faces
    before smoothing, while its faces are the smoothed ones: feeding the
    report's faces back to [create_speaker_summary] does not reproduce
    its [speakers] (the average position differs). *)
Example report_speakers_not_from_faces :
  match detect_faces_in_video (A := jitter_face) jitter_video with
  | Analysed r =>
      existsb (fun '(a, b) => negb (PrimFloat.eqb (fst (avg_position a)) (fst (avg_position b))))
        (combine (speakers r) (create_speaker_summary (report_faces r) []))
  | _ => false
  end = true.
Proof. vm_compute. reflexivity. Qed.

Lemma report_faces_typed_witness :
  boxes_in_frame (A := still_face) /\ (0 < cap_fps ten_second_video)%Q /\
  detect_faces_in_video (A := still_face) ten_second_video = Analysed still_face_report /\
  Forall detection_typed (report_faces still_face_report).
Proof.
  assert (Hbox : boxes_in_frame (A := still_face)).
  { intros frame x y w h Hin. simpl in Hin. destruct (Nat.ltb frame 50); [|destruct Hin].
    destruct Hin as [Hin|[]]. injection Hin as <- <- <- <-. lia. }
  assert (Hdet : detect_faces_in_video (A := still_face) ten_second_video = Analysed still_face_report)
    by (vm_compute; reflexivity).
  split; [exact Hbox|]. split; [reflexivity|]. split; [exact Hdet|].
  exact (report_faces_typed (A := still_face) ten_second_video _ Hbox eq_refl Hdet).
Defined.

Definition jitter_report : report :=
  match detect_faces_in_video (A := jitter_face) jitter_video with
  | Analysed r => r
  | _ => mk_report 0 0 [] [] (mk_info 0 0 0)
  end.

Lemma summary_roundtrip_witness :
  (0 < cap_fps jitter_video)%Q /\
  detect_faces_in_video (A := jitter_face) jitter_video = Analysed jitter_report /\
  option_map summary_key
    (find (fun sm => String.eqb (id sm) "speaker_1") (create_speaker_summary (report_faces jitter_report) [])) =
  option_map summary_key (find (fun sm => String.eqb (id sm) "speaker_1") (speakers jitter_report)).
Proof.
  assert (Hdet : detect_faces_in_video (A := jitter_face) jitter_video = Analysed jitter_report)
    by (vm_compute; reflexivity).
  split; [reflexivity|]. split; [exact Hdet|].
  exact (summary_roundtrip (A := jitter_face) jitter_video _ "speaker_1" eq_refl Hdet).
Defined.

Lemma one_person_one_speaker_witness :
  (forall frame box, exists e es, face_encodings (Adapters := still_face) frame box = Encodings (e :: es)) /\
  (forall frame box frame' box' e es e' es',
     face_encodings (Adapters := still_face) frame box = Encodings (e :: es) ->
     face_encodings (Adapters := still_face) frame' box' = Encodings (e' :: es') ->
     distance (Adapters := still_face) e e' <= tolerance) /\
  detect_faces_in_video (A := still_face) ten_second_video = Analysed still_face_report /\
  report_faces still_face_report <> [] /\
  map id (speakers still_face_report) = [speaker_name 1].
Proof.
  assert (Henc : forall frame box, exists e es,
             face_encodings (Adapters := still_face) frame box = Encodings (e :: es))
    by (intros; do 2 eexists; reflexivity).
  assert (Hsame : forall frame box frame' box' e es e' es',
             face_encodings (Adapters := still_face) frame box = Encodings (e :: es) ->
             face_encodings (Adapters := still_face) frame' box' = Encodings (e' :: es') ->
             distance (Adapters := still_face) e e' <= tolerance).
  { intros frame box frame' box' e es e' es' H H'. simpl in H, H'.
    injection H as <- _. injection H' as <- _. vm_compute. discriminate. }
  assert (Hdet : detect_faces_in_video (A := still_face) ten_second_video = Analysed still_face_report)
    by (vm_compute; reflexivity).
  assert (Hne : report_faces still_face_report <> []) by (vm_compute; discriminate).
  split; [exact Henc|]. split; [exact Hsame|]. split; [exact Hdet|]. split; [exact Hne|].
  exact (proj1 (one_person_one_speaker (A := still_face) Henc Hsame ten_second_video _ Hdet Hne)).
Defined.
