(* ===== verification/Capture.v ===== *)
(** * The capture's life cycle ([detect_faces_in_video] as a step relation)

    src/face_detection.py, lines 16-137, seen from the video capture: the
    function opens it (line 16), reads its properties (lines 23-25), reads
    frames until [cap.read()] fails (lines 44-116), releases it (line 118)
    and assembles the report (lines 120-137). [step] is one move of that
    program, labelled with what it does to the capture. [next] is the same
    relation as a function, and [run_for] runs it with fuel. The theorems
    show that the relation computes [detect_faces_in_video], that it
    terminates, how it uses the capture, and what holds of every
    configuration it reaches. *)

From Stdlib Require Import ZArith QArith List Bool Lia Wf_nat.
From S2P Require Import Prelude Sampler Identity Faces Pipeline.
Import ListNotations.

(** What the program does to the capture: [cap.read()] returning a frame,
    [cap.read()] failing (line 46), and [cap.release()] (line 118). *)
Inductive cap_event := Read | ReadEnd | Release.


Section Steps.
Context `{A : Adapters}.

(** Line 24, [int(cap.get(cv2.CAP_PROP_FRAME_COUNT))]. *)
Definition cap_total (cap : capture Frame) : Z := Sampler.py_int (cap_frame_count cap).

(** Line 39. *)
Definition cap_skip (cap : capture Frame) : nat := frame_skip (cap_fps cap).

(** Where the program is: before line 18, in the [while] loop with the
    frames not yet read, after the loop (line 118), after the release
    (line 120), or returned or raised. *)
Inductive config :=
| Start (cap : capture Frame)
| Scanning (cap : capture Frame) (st : loop_state) (rest : list Frame)
| AfterLoop (cap : capture Frame) (st : loop_state)
| Released (cap : capture Frame) (st : loop_state)
| Stopped (res : video_result).

(** One move. Line 18 returns on an unopened capture; line 25 divides by
    [fps]; one iteration of the [while] loop reads a frame and runs
    [process_frame], which may raise at line 113; a failed read breaks
    the loop; line 118 releases the capture; lines 120-137 build the
    report. *)
Inductive step : config -> list cap_event -> config -> Prop :=
| step_not_opened cap :
    is_opened cap = false -> step (Start cap) [] (Stopped NotOpened)
| step_zero_fps cap :
    is_opened cap = true -> Qeq_bool (cap_fps cap) 0 = true ->
    step (Start cap) [] (Stopped AnalysisRaised)
| step_enter cap :
    is_opened cap = true -> Qeq_bool (cap_fps cap) 0 = false ->
    step (Start cap) [] (Scanning cap loop_init (cap_frames cap))
| step_frame cap st frame rest st' :
    process_frame (cap_fps cap) (cap_total cap) (cap_skip cap) st frame = Some st' ->
    step (Scanning cap st (frame :: rest)) [Read] (Scanning cap st' rest)
| step_raise cap st frame rest :
    process_frame (cap_fps cap) (cap_total cap) (cap_skip cap) st frame = None ->
    step (Scanning cap st (frame :: rest)) [Read] (Stopped AnalysisRaised)
| step_eof cap st :
    step (Scanning cap st []) [ReadEnd] (AfterLoop cap st)
| step_release cap st :
    step (AfterLoop cap st) [Release] (Released cap st)
| step_report cap st :
    step (Released cap st) []
      (Stopped (Analysed (assemble_report (cap_fps cap) (cap_total cap) (cap_skip cap) st))).

(** Runs of the program, with the events they produce. *)
Inductive steps : config -> list cap_event -> config -> Prop :=
| steps_refl c : steps c [] c
| steps_trans c1 t1 c2 t2 c3 : step c1 t1 c2 -> steps c2 t2 c3 -> steps c1 (t1 ++ t2) c3.

(** [step] as a function. *)
Definition next (c : config) : option (list cap_event * config) :=
  match c with
  | Start cap =>
      Some ([], if negb (is_opened cap) then Stopped NotOpened
                else if Qeq_bool (cap_fps cap) 0 then Stopped AnalysisRaised
                else Scanning cap loop_init (cap_frames cap))
  | Scanning cap st (frame :: rest) =>
      Some ([Read], match process_frame (cap_fps cap) (cap_total cap) (cap_skip cap) st frame with
                    | Some st' => Scanning cap st' rest
                    | None => Stopped AnalysisRaised
                    end)
  | Scanning cap st [] => Some ([ReadEnd], AfterLoop cap st)
  | AfterLoop cap st => Some ([Release], Released cap st)
  | Released cap st =>
      Some ([], Stopped (Analysed (assemble_report (cap_fps cap) (cap_total cap) (cap_skip cap) st)))
  | Stopped _ => None
  end.

(** At most [fuel] moves from [c]: the events and the configuration reached. *)
Fixpoint run_for (fuel : nat) (c : config) : list cap_event * config :=
  match fuel with
  | O => ([], c)
  | S n =>
      match next c with
      | None => ([], c)
      | Some (t, c') => let '(t', c'') := run_for n c' in (t ++ t', c'')
      end
  end.

(** The number of moves left: each frame not yet read is one. *)
Definition measure (c : config) : nat :=
  match c with
  | Start cap => List.length (cap_frames cap) + 4
  | Scanning _ _ rest => List.length rest + 3
  | AfterLoop _ _ => 2
  | Released _ _ => 1
  | Stopped _ => 0
  end.

End Steps.

Arguments config {A}.

Section StepLemmas.
Context `{A : Adapters}.
Implicit Types (c : config) (t : list cap_event).

(** The function and the relation agree. *)
Lemma next_step c t c' : step c t c' <-> next c = Some (t, c').
Proof.
  split.
  - intros []; simpl; repeat match goal with H : _ = _ |- _ => rewrite H; clear H end; reflexivity.
  - destruct c as [cap|cap st [|frame rest]|cap st|cap st|res]; simpl; intro H;
      injection H as <- <- || discriminate.
    + destruct (is_opened cap) eqn:Eo; cbn [negb]; [|now constructor].
      destruct (Qeq_bool (cap_fps cap) 0) eqn:Ef; now constructor.
    + constructor.
    + destruct (process_frame _ _ _ st frame) eqn:E; now constructor.
    + constructor.
    + constructor.
Qed.

Lemma step_deterministic c t1 c1 t2 c2 : step c t1 c1 -> step c t2 c2 -> t1 = t2 /\ c1 = c2.
Proof.
  rewrite !next_step. intros H1 H2. rewrite H1 in H2. now injection H2 as <- <-.
Qed.

Lemma stopped_no_step res t c : ~ step (Stopped res) t c.
Proof. rewrite next_step. discriminate. Qed.

Lemma steps_one c t c' : step c t c' -> steps c t c'.
Proof. intro H. rewrite <- (app_nil_r t). eapply steps_trans; [exact H|constructor]. Qed.

Lemma steps_app c1 t1 c2 t2 c3 : steps c1 t1 c2 -> steps c2 t2 c3 -> steps c1 (t1 ++ t2) c3.
Proof.
  induction 1 as [|c1 ta c2' tb c2'' Hs _ IH]; intro H2; [exact H2|].
  rewrite <- app_assoc. eapply steps_trans; [exact Hs|]. now apply IH.
Qed.

(** Two runs to a stopped configuration are the same run. *)
Lemma steps_stopped_det c t1 r1 t2 r2 :
  steps c t1 (Stopped r1) -> steps c t2 (Stopped r2) -> t1 = t2 /\ r1 = r2.
Proof.
  intro H1. revert t2. remember (Stopped r1) as s1 eqn:Es1.
  induction H1 as [c|c ta cm tb c3 Hs Hrest IH]; intros t2 H2.
  - subst c. inversion H2 as [|? ? ? ? ? Hs']; [split; congruence|].
    now apply stopped_no_step in Hs'.
  - inversion H2 as [c'|? ta' cm' tb' ? Hs' Hrest']; subst.
    + now apply stopped_no_step in Hs.
    + destruct (step_deterministic _ _ _ _ _ Hs Hs') as [<- <-].
      destruct (IH eq_refl _ Hrest') as [<- <-]. split; reflexivity.
Qed.

Lemma run_for_steps fuel c : steps c (fst (run_for fuel c)) (snd (run_for fuel c)).
Proof.
  revert c. induction fuel as [|n IH]; intro c; simpl; [constructor|].
  destruct (next c) as [[t c']|] eqn:E; [|constructor].
  specialize (IH c'). destruct (run_for n c') as [t' c''] eqn:Er. simpl in *.
  eapply steps_trans; [apply next_step, E|exact IH].
Qed.

(** Every move consumes the measure. *)
Lemma step_measure c t c' : step c t c' -> (measure c' < measure c)%nat.
Proof. intros []; simpl; try destruct (process_frame _ _ _ _ _); simpl; lia. Qed.

Lemma measure_zero c : measure c = 0%nat -> exists res, c = Stopped res.
Proof. destruct c as [|? ? []| | |res]; simpl; try lia; eauto. Qed.

End StepLemmas.

(** ** Termination *)

Section Termination.
Context `{A : Adapters}.

(** Termination: no run of [detect_faces_in_video] is infinite. The
    relation "one move later" is well founded: each move reads a frame or
    leaves the loop, and the capture holds finitely many frames. *)
Theorem step_well_founded : well_founded (fun c' c : config => exists t, step c t c').
Proof.
  apply (well_founded_lt_compat _ measure). intros c' c [t H]. exact (step_measure _ _ _ H).
Qed.

Lemma run_for_stops_gen n (c : config) :
  (measure c <= n)%nat -> exists t res, run_for n c = (t, Stopped res).
Proof.
  revert c. induction n as [|n IH]; intros c Hm.
  - destruct (measure_zero c ltac:(lia)) as [res ->]. simpl. eauto.
  - simpl. destruct (next c) as [[t c']|] eqn:E.
    + pose proof (step_measure _ _ _ (proj2 (next_step _ _ _) E)).
      destruct (IH c' ltac:(lia)) as [t' [res ->]]. eauto.
    + destruct c as [|? ? []| | |res]; try discriminate. eauto.
Qed.

(** Liveness: from every configuration the program stops (returns
    or raises) within [measure c] moves, that is at most the number of
    frames of the capture plus four; [run_for] with that much fuel
    reaches the stopped configuration. *)
Theorem run_for_stops (c : config) : exists t res, run_for (measure c) c = (t, Stopped res).
Proof. apply run_for_stops_gen. lia. Qed.

End Termination.

(** ** The step relation computes [detect_faces_in_video] *)

Section Refinement.
Context `{A : Adapters}.

Lemma scan_some cap st rest st' :
  run_loop (cap_fps cap) (cap_total cap) (cap_skip cap) rest st = Some st' ->
  steps (Scanning cap st rest) (repeat Read (List.length rest)) (Scanning cap st' []).
Proof.
  revert st. induction rest as [|frame rest IH]; intros st H; simpl in H.
  - injection H as <-. constructor.
  - destruct (process_frame _ _ _ st frame) as [st1|] eqn:E; [|discriminate].
    apply (steps_trans _ [Read] (Scanning cap st1 rest) (repeat Read (List.length rest))).
    + now constructor.
    + now apply IH.
Qed.

Lemma scan_none cap st rest :
  run_loop (cap_fps cap) (cap_total cap) (cap_skip cap) rest st = None ->
  exists k, (k <= List.length rest)%nat /\
            steps (Scanning cap st rest) (repeat Read k) (Stopped AnalysisRaised).
Proof.
  revert st. induction rest as [|frame rest IH]; intros st H; simpl in H; [discriminate|].
  destruct (process_frame _ _ _ st frame) as [st1|] eqn:E.
  - destruct (IH _ H) as [k [Hk Hs]]. exists (S k). split; [simpl; lia|].
    apply (steps_trans _ [Read] (Scanning cap st1 rest) (repeat Read k)); [now constructor|exact Hs].
  - exists 1%nat. split; [simpl; lia|]. apply steps_one. now constructor.
Qed.

(** The run of [detect_faces_in_video] and the capture events it
    produces: none when the capture is not open or [fps] is zero, every
    frame read and then the release after a completed loop, and some
    reads and no release when the progress line raises. *)
Definition trace_of (cap : capture Frame) (res : video_result) (t : list cap_event) : Prop :=
  match res with
  | Analysed _ => t = repeat Read (List.length (cap_frames cap)) ++ [ReadEnd; Release]
  | NotOpened => t = []
  | AnalysisRaised => ~ In Release t /\ ~ In ReadEnd t /\
                      (List.length t <= List.length (cap_frames cap))%nat
  end.

Lemma detect_run cap :
  exists t, steps (Start cap) t (Stopped (detect_faces_in_video cap)) /\
            trace_of cap (detect_faces_in_video cap) t.
Proof.
  unfold detect_faces_in_video.
  destruct (is_opened cap) eqn:Eo; cbn [negb].
  2: { exists []. split; [apply steps_one; now constructor|reflexivity]. }
  destruct (Qeq_bool (cap_fps cap) 0) eqn:Ef.
  { exists []. split; [apply steps_one; now constructor|]. simpl; intuition lia. }
  fold (cap_total cap) (cap_skip cap).
  pose proof (step_enter cap Eo Ef) as Henter.
  destruct (run_loop _ _ _ (cap_frames cap) loop_init) as [st|] eqn:Hrun.
  - exists ([] ++ repeat Read (List.length (cap_frames cap)) ++ [ReadEnd] ++ [Release] ++ []).
    split; [|reflexivity].
    eapply steps_trans; [exact Henter|].
    eapply steps_app; [exact (scan_some _ _ _ _ Hrun)|].
    eapply steps_trans; [constructor|]. eapply steps_trans; [constructor|].
    apply steps_one. constructor.
  - destruct (scan_none _ _ _ Hrun) as [k [Hk Hs]].
    exists ([] ++ repeat Read k). split; [eapply steps_trans; [exact Henter|exact Hs]|].
    simpl. rewrite repeat_length. split; [|split; [|exact Hk]];
      intro Hin; apply repeat_spec in Hin; discriminate.
Qed.

End Refinement.

Section Claims.
Context `{A : Adapters}.

(** Equivalence: the step relation computes [detect_faces_in_video].
    A run from the opened capture stops with exactly the result the
    functional model returns, and such a run exists. *)
Theorem steps_detect_iff cap res :
  (exists t, steps (Start cap) t (Stopped res)) <-> res = detect_faces_in_video cap.
Proof.
  destruct (detect_run cap) as [t0 [Hs0 _]]. split.
  - intros [t Hs]. exact (proj2 (steps_stopped_det _ _ _ _ _ Hs Hs0)).
  - intros ->. eauto.
Qed.

(** C5. Safety of the capture: a run that completes reads every frame
    once, sees the failed read, and releases the capture exactly once,
    last; a run that raises in the loop (the progress line's
    [ZeroDivisionError]) or at line 25 never reaches [cap.release()]; an
    unopened capture is not touched. *)
Theorem capture_trace cap t res :
  steps (Start cap) t (Stopped res) -> trace_of cap res t.
Proof.
  intro Hs. destruct (detect_run cap) as [t0 [Hs0 Htr]].
  destruct (steps_stopped_det _ _ _ _ _ Hs Hs0) as [-> ->]. exact Htr.
Qed.

End Claims.

(** ** The invariant of the reachable configurations *)

Lemma skipn_S_cons {X} n (l : list X) x r :
  skipn n l = x :: r -> skipn (S n) l = r /\ (n < List.length l)%nat.
Proof.
  revert n. induction l as [|y l IH]; intros [|n] H; simpl in *; try discriminate.
  - injection H as -> ->. split; [reflexivity|lia].
  - destruct (IH n H) as [H1 H2]. split; [exact H1|lia].
Qed.

Lemma sampled_between_snoc skip c n :
  sampled_between skip c (S n) =
  (sampled_between skip c n + if is_sampled skip (c + n) then 1 else 0)%nat.
Proof.
  unfold sampled_between. rewrite seq_S, filter_app, length_app. simpl.
  destruct (is_sampled skip (c + n)); reflexivity.
Qed.

Section Invariant.
Context `{A : Adapters}.

(** In the loop: the registry and the faces satisfy [loop_inv],
    [frame_count] is the number of frames read, the frames not yet read
    are the rest of the capture, and [processed_frames] counts the
    sampled frames among those read. *)
Definition scan_inv (cap : capture Frame) (st : loop_state) (rest : list Frame) : Prop :=
  loop_inv (all_faces st) (registry_of st) /\
  (frame_count st <= List.length (cap_frames cap))%nat /\
  rest = skipn (frame_count st) (cap_frames cap) /\
  processed_frames st = sampled_between (cap_skip cap) 0 (frame_count st).

Definition config_inv (c : config) : Prop :=
  match c with
  | Scanning cap st rest => scan_inv cap st rest
  | AfterLoop cap st | Released cap st => scan_inv cap st []
  | Start _ | Stopped _ => True
  end.

Lemma step_inv c t c' : step c t c' -> config_inv c -> config_inv c'.
Proof.
  intros Hs Hinv. destruct Hs as [| |cap Ho Hf|cap st frame rest st' E|cap st frame rest E| | |];
    cbn [config_inv] in *; try exact I; try exact Hinv.
  - split; [split; [apply registry_init_wf|reflexivity]|]. split; [simpl; lia|split; reflexivity].
  - destruct Hinv as [Hl [Hle [Hrest Hp]]].
    destruct (skipn_S_cons _ _ _ _ (eq_sym Hrest)) as [Hr Hlt].
    destruct (process_frame_counts _ _ _ _ _ _ E) as [Hc Hp'].
    split; [exact (process_frame_P loop_inv process_face_inv _ _ _ _ _ _ Hl E)|].
    rewrite Hc, Hp', Hp, sampled_between_snoc. repeat split; [lia|symmetry; exact Hr].
Qed.

Lemma steps_inv c t c' : steps c t c' -> config_inv c -> config_inv c'.
Proof. induction 1; eauto using step_inv. Qed.

(** C16. Invariant, by induction on the runs: every configuration the
    program reaches from [Start] satisfies [config_inv]. Inside the loop
    the registry is well formed, the faces' speaker ids in first-seen
    order are the registered names, [frame_count] counts the frames read,
    and [processed_frames] counts the sampled ones among them. *)
Theorem reachable_inv cap t c : steps (Start cap) t c -> config_inv c.
Proof. intro Hs. exact (steps_inv _ _ _ Hs I). Qed.

End Invariant.

(** ** The history is append-only *)

Section History.
Context `{A : Adapters}.

(** [st'] extends [st]: faces and registry entries are only appended. *)
Definition history_extends (st st' : loop_state) : Prop :=
  (exists fs, all_faces st' = all_faces st ++ fs) /\
  (exists es ns, known_face_encodings (registry_of st') = known_face_encodings (registry_of st) ++ es /\
                 known_face_names (registry_of st') = known_face_names (registry_of st) ++ ns).

(** The loop state a configuration holds, if any. *)
Definition cfg_state (c : config) : option loop_state :=
  match c with
  | Scanning _ st _ | AfterLoop _ st | Released _ st => Some st
  | Start _ | Stopped _ => None
  end.

Lemma history_refl st : history_extends st st.
Proof. split; [exists []|exists [], []]; now rewrite !app_nil_r. Qed.

Lemma history_same st st' :
  all_faces st' = all_faces st -> registry_of st' = registry_of st -> history_extends st st'.
Proof.
  intros Hf Hr. split; [exists []|exists [], []]; rewrite ?Hf, ?Hr, !app_nil_r; auto.
Qed.

Lemma history_trans st1 st2 st3 :
  history_extends st1 st2 -> history_extends st2 st3 -> history_extends st1 st3.
Proof.
  intros [[f1 H1] [e1 [n1 [E1 N1]]]] [[f2 H2] [e2 [n2 [E2 N2]]]].
  split; [exists (f1 ++ f2)|exists (e1 ++ e2), (n1 ++ n2)];
    rewrite ?H2, ?H1, ?E2, ?E1, ?N2, ?N1, ?app_assoc; auto.
Qed.

Lemma process_face_history ts frame st box : history_extends st (process_face ts frame st box).
Proof.
  destruct box as [[[x y] w] h]. unfold process_face.
  destruct (face_encodings frame _) as [[|e es]|]; try apply history_refl.
  destruct (resolve distance (registry_of st) e) as [[sid reg]|] eqn:Hres; [|apply history_refl].
  split; [eexists; reflexivity|]. cbn [registry_of].
  destruct (resolve_cases _ _ _ _ _ Hres) as [->| ->].
  - exists [], []. now rewrite !app_nil_r.
  - exists [e], [sid]. split; reflexivity.
Qed.

Lemma process_frame_history fps total skip st frame st' :
  process_frame fps total skip st frame = Some st' -> history_extends st st'.
Proof.
  unfold process_frame. destruct (negb _).
  - intro H. injection H as <-. now apply history_same.
  - destruct (_ && _)%bool; [discriminate|]. intro H. injection H as <-.
    assert (Hf : forall boxes st0, history_extends st0
               (fold_left (process_face (inject_Z (Z.of_nat (frame_count st)) / fps)%Q frame) boxes st0)).
    { induction boxes as [|b boxes IH]; intro st0; simpl; [apply history_refl|].
      eapply history_trans; [apply process_face_history|apply IH]. }
    eapply history_trans; [apply (Hf (detect_multiscale frame) st)|]. now apply history_same.
Qed.

Lemma step_history c t c' st :
  step c t c' -> cfg_state c = Some st ->
  (exists st', cfg_state c' = Some st' /\ history_extends st st') \/ exists res, c' = Stopped res.
Proof.
  intros [] Hc; cbn [cfg_state] in Hc; try discriminate; injection Hc as <-; eauto;
    left; eexists; split; try reflexivity; try apply history_refl.
  eapply process_frame_history; eassumption.
Qed.

Lemma steps_from_stopped res t c : steps (Stopped res) t c -> c = Stopped res.
Proof. inversion 1 as [|? ? ? ? ? Hs]; [reflexivity|]. now apply stopped_no_step in Hs. Qed.

(** C6. The history is append-only (the data model of the
    specification: a Detection is immutable once assembled, a registry
    entry is never mutated or removed). Between any two points of a run,
    the later list of collected faces extends the earlier one, and the
    later registry extends the earlier registry's encodings and names: no
    face is dropped or rewritten and no reference embedding is updated. *)
Theorem history_append_only c t c' st st' :
  steps c t c' -> cfg_state c = Some st -> cfg_state c' = Some st' -> history_extends st st'.
Proof.
  intro Hs. revert st. induction Hs as [c|c1 t1 c2 t2 c3 Hs1 Hrest IH]; intros st Hc Hc'.
  - rewrite Hc in Hc'. injection Hc' as <-. apply history_refl.
  - destruct (step_history _ _ _ _ Hs1 Hc) as [[st2 [Hc2 Hext]]|[res ->]].
    + exact (history_trans _ _ _ Hext (IH _ Hc2 Hc')).
    + apply steps_from_stopped in Hrest. subst c3. discriminate.
Qed.

End History.

(** ** Witnesses on the synthetic videos of [Pipeline] *)

(** The ten-second video from a container that reports no frame count. *)
Definition zero_count_video : capture nat := mk_capture true 10 0 (seq 0 100).

Lemma capture_trace_witness :
  steps (A := still_face) (Start (A := still_face) zero_count_video) (repeat Read 46) (Stopped AnalysisRaised) /\
  trace_of (A := still_face) zero_count_video AnalysisRaised (repeat Read 46).
Proof.
  assert (Hs : steps (A := still_face) (Start (A := still_face) zero_count_video) (repeat Read 46)
                 (Stopped AnalysisRaised)).
  { pose proof (run_for_steps (A := still_face) 60 (Start (A := still_face) zero_count_video)) as H.
    vm_compute in H. exact H. }
  split; [exact Hs|]. exact (capture_trace (A := still_face) zero_count_video _ _ Hs).
Defined.

Lemma reachable_inv_witness :
  steps (A := still_face) (Start (A := still_face) ten_second_video)
    (fst (run_for 10 (Start (A := still_face) ten_second_video))) (snd (run_for 10 (Start (A := still_face) ten_second_video))) /\
  config_inv (A := still_face) (snd (run_for 10 (Start (A := still_face) ten_second_video))).
Proof.
  split; [apply run_for_steps|].
  apply (reachable_inv (A := still_face) ten_second_video (fst (run_for 10 (Start (A := still_face) ten_second_video)))).
  apply run_for_steps.
Defined.

(** The loop of the ten-second video, before its first frame is read. *)
Definition still_scan : @config still_face :=
  @Scanning still_face ten_second_video (@loop_init still_face) (cap_frames ten_second_video).

Lemma history_append_only_witness :
  steps still_scan (fst (run_for 20 still_scan)) (snd (run_for 20 still_scan)) /\
  cfg_state still_scan = Some (@loop_init still_face) /\
  history_extends (@loop_init still_face)
    (match cfg_state (snd (run_for 20 still_scan)) with Some st => st | None => loop_init end).
Proof.
  assert (Hs := run_for_steps 20 still_scan).
  split; [exact Hs|]. split; [reflexivity|].
  apply (history_append_only _ _ _ loop_init _ Hs eq_refl).
  vm_compute. reflexivity.
Defined.
