(* ===== verification/Cli.v ===== *)
(** * The command-line entry points

    [main] of src/face_detection.py (lines 275-294), with the write of
    the report (lines 139-141). The file system and the video decoder
    are an explicit world. The report's JSON write is modelled by the
    Python type of each value [json.dump] meets. The detector's box
    coordinates are numpy int32, which [json] cannot serialise. *)

From Stdlib Require Import ZArith QArith List String Ascii Bool Lia.
From S2P Require Import Prelude Faces Summary Pipeline.
Import ListNotations.

Local Open Scope string_scope.

(** ** [os.path.dirname] (posixpath) *)

Definition is_sep (c : ascii) : bool := Ascii.eqb c "/"%char.

(** [p.rfind('/') + 1]: the length of the head up to the last separator. *)
Definition rfind_sep_end (cs : list ascii) : nat :=
  fst (fold_left (fun '(best, pos) c => (if is_sep c then S pos else best, S pos)) cs (0, 0)%nat).

Fixpoint drop_seps (cs : list ascii) : list ascii :=
  match cs with
  | c :: cs' => if is_sep c then drop_seps cs' else cs
  | [] => []
  end.

(** [head.rstrip('/')]. *)
Definition rstrip_sep (cs : list ascii) : list ascii := rev (drop_seps (rev cs)).

Definition dirname (p : string) : string :=
  let cs := list_ascii_of_string p in
  let head := firstn (rfind_sep_end cs) cs in
  string_of_list_ascii
    (if negb (forallb is_sep head) then rstrip_sep head else head).

(** ** The values [json.dump] meets *)

(** The Python type of a leaf: [numpy.float64] subclasses [float] and is
    serialised; numpy integers are not. *)
Inductive py_kind := KStr | KInt | KFloat | KNumpyFloat | KNumpyInt.

#[warnings="-register-all"]
Inductive py_value :=
| PyLeaf (k : py_kind)
| PyList (l : list py_value)
| PyDict (fields : list (string * py_value)).

Definition kind_serializable (k : py_kind) : bool :=
  match k with KNumpyInt => false | _ => true end.

(** Whether [json.dump] gets through the value without a [TypeError]. *)
Fixpoint serializable (v : py_value) : bool :=
  match v with
  | PyLeaf k => kind_serializable k
  | PyList l => forallb serializable l
  | PyDict fs => forallb (fun kv => serializable (snd kv)) fs
  end.

(** A summary entry (lines 216-227): the averages are numpy floats. *)
Definition summary_value (sm : speaker_summary) : py_value :=
  PyDict [("id", PyLeaf KStr); ("appearances", PyLeaf KInt);
          ("avg_confidence", PyLeaf KNumpyFloat); ("first_seen", PyLeaf KFloat);
          ("last_seen", PyLeaf KFloat); ("screen_time", PyLeaf KFloat);
          ("avg_position", PyDict [("x", PyLeaf KNumpyFloat); ("y", PyLeaf KNumpyFloat)])].

(** A face (lines 94-104). [x], [y], [width] and [height] come from the
    numpy int32 array of [detectMultiScale]; a smoothed copy holds a
    Python int in [x] and [y], but its [width], [height] and centre are
    still numpy integers. *)
Definition face_value (f : face) : py_value :=
  PyDict [("timestamp", PyLeaf KFloat); ("x", PyLeaf KNumpyInt); ("y", PyLeaf KNumpyInt);
          ("width", PyLeaf KNumpyInt); ("height", PyLeaf KNumpyInt);
          ("confidence", PyLeaf KNumpyFloat); ("speakerId", PyLeaf KStr);
          ("center_x", PyLeaf KNumpyInt); ("center_y", PyLeaf KNumpyInt)].

(** The report (lines 127-137). *)
Definition report_value (r : report) : py_value :=
  PyDict [("video_duration", PyLeaf KFloat); ("total_faces_detected", PyLeaf KInt);
          ("speakers", PyList (map summary_value (speakers r)));
          ("faces", PyList (map face_value (report_faces r)));
          ("processing_info", PyDict [("fps", PyLeaf KFloat); ("frames_processed", PyLeaf KInt);
                                      ("frame_skip", PyLeaf KInt)])].

(** ** [main] of face_detection.py *)

(** The output file after the run: left alone, written in full, or
    opened and left with the chunks [json.dump] wrote before it raised. *)
Inductive output_file := Untouched | Written | Truncated.

Record outcome := mk_outcome { exit_status : Z; output : output_file }.

Section Main.
Context `{A : Adapters}.

(** What the program sees of its environment. *)
Record world := mk_world {
  argv : list string;
  path_exists : string -> bool;
  (** [os.makedirs(d, exist_ok=True)] succeeds for a non-empty [d]. *)
  makedirs_ok : string -> bool;
  (** [cv2.VideoCapture(path)]. *)
  open_video : string -> capture Frame;
  (** [open(path, 'w')] succeeds. *)
  can_open_write : string -> bool
}.

(** Lines 275-294. An exception outside the [try] (the [os.makedirs('')]
    of a bare file name) ends the interpreter with status 1. *)
Definition main (w : world) : outcome :=
  match argv w with
  | [_; video_path; output_path] =>
      if negb (path_exists w video_path) then mk_outcome 1 Untouched
      else
        let d := dirname output_path in
        if String.eqb d "" || negb (makedirs_ok w d) then mk_outcome 1 Untouched
        else
          match detect_faces_in_video (open_video w video_path) with
          | NotOpened => mk_outcome 0 Untouched
          | AnalysisRaised => mk_outcome 1 Untouched
          | Analysed r =>
              if negb (can_open_write w output_path) then mk_outcome 1 Untouched
              else if serializable (report_value r) then mk_outcome 0 Written
              else mk_outcome 1 Truncated
          end
  | _ => mk_outcome 1 Untouched
  end.

End Main.

(** ** [dirname] *)

Lemma rfind_sep_end_fold cs best pos :
  forallb (fun c => negb (is_sep c)) cs = true ->
  fst (fold_left (fun '(best, pos) c => (if is_sep c then S pos else best, S pos)) cs (best, pos)) = best.
Proof.
  revert pos. induction cs as [|c cs IH]; intros pos H; simpl in *; [reflexivity|].
  apply andb_true_iff in H as [Hc H]. destruct (is_sep c); [discriminate|]. now apply IH.
Qed.

(** A path without a separator has an empty directory part. *)
Lemma dirname_no_sep p :
  forallb (fun c => negb (is_sep c)) (list_ascii_of_string p) = true -> dirname p = "".
Proof.
  intro H. unfold dirname, rfind_sep_end. rewrite (rfind_sep_end_fold _ 0 0 H). reflexivity.
Qed.

(** ** The JSON write *)

(** The report can be written exactly when it has no face: every face
    carries numpy integers. *)
Lemma report_serializable_iff r :
  serializable (report_value r) = true <-> report_faces r = [].
Proof.
  assert (Hs : forallb serializable (map summary_value (speakers r)) = true).
  { apply forallb_forall. intros v Hv. apply in_map_iff in Hv as [sm [<- _]]. reflexivity. }
  unfold report_value. destruct (report_faces r) as [|f fs]; simpl; rewrite Hs; simpl.
  - split; reflexivity.
  - split; discriminate.
Qed.

Section MainTheorems.
Context `{A : Adapters}.

(** C30. A video path that does not exist ends the program with status 1
    before anything is written: the output file is not created or
    modified. *)
Theorem main_missing_video w prog video_path output_path :
  argv w = [prog; video_path; output_path] ->
  path_exists w video_path = false ->
  main w = mk_outcome 1 Untouched.
Proof. intros Hargs Hex. unfold main. now rewrite Hargs, Hex. Qed.

(** C31. An output path without a directory part (for example
    [out.json]) makes [os.makedirs('')] raise outside the [try]: the
    program stops with status 1 before the video is opened, and no report
    is written. *)
Theorem main_bare_output_name w prog video_path output_path :
  argv w = [prog; video_path; output_path] ->
  path_exists w video_path = true ->
  forallb (fun c => negb (is_sep c)) (list_ascii_of_string output_path) = true ->
  main w = mk_outcome 1 Untouched.
Proof.
  intros Hargs Hex Hsep. unfold main. rewrite Hargs, Hex, (dirname_no_sep _ Hsep). reflexivity.
Qed.

(** C32. A path that exists but that OpenCV cannot open ends the program
    with status 0 and no output: [detect_faces_in_video] prints an error
    and returns, and [main] does not exit with an error. *)
Theorem main_unopened_video w prog video_path output_path :
  argv w = [prog; video_path; output_path] ->
  path_exists w video_path = true ->
  String.eqb (dirname output_path) "" = false ->
  makedirs_ok w (dirname output_path) = true ->
  is_opened (open_video w video_path) = false ->
  main w = mk_outcome 0 Untouched.
Proof.
  intros Hargs Hex Hd Hmk Hop. unfold main, detect_faces_in_video.
  now rewrite Hargs, Hex, Hd, Hmk, Hop.
Qed.

(** C14. A run that detects at least one face cannot save its report:
    the face's numpy int32 fields make [json.dump] raise [TypeError] after
    the file was opened, so the program ends with status 1 and leaves a
    truncated output file. A run without faces writes its report. *)
Theorem main_report_write w prog video_path output_path r :
  argv w = [prog; video_path; output_path] ->
  path_exists w video_path = true ->
  String.eqb (dirname output_path) "" = false ->
  makedirs_ok w (dirname output_path) = true ->
  detect_faces_in_video (open_video w video_path) = Analysed r ->
  can_open_write w output_path = true ->
  main w = (if (List.length (report_faces r) =? 0)%nat then mk_outcome 0 Written
            else mk_outcome 1 Truncated).
Proof.
  intros Hargs Hex Hd Hmk Hdet Hw. unfold main.
  rewrite Hargs, Hex, Hd, Hmk, Hdet, Hw. cbn [negb orb].
  destruct (serializable (report_value r)) eqn:Hs.
  - apply report_serializable_iff in Hs. now rewrite Hs.
  - destruct (report_faces r) eqn:Hf; [|reflexivity].
    apply report_serializable_iff in Hf. congruence.
Qed.

(** C34. Any command line without exactly two arguments prints the usage line
    and exits with status 1 before anything else is looked at. *)
Theorem main_usage w :
  List.length (argv w) <> 3%nat -> main w = mk_outcome 1 Untouched.
Proof.
  intro Hl. unfold main. destruct (argv w) as [|a [|b [|c [|d l]]]]; try reflexivity.
  now contradiction Hl.
Qed.

(** C33. An output file that cannot be opened for writing ([open(output_path,
    'w')] raises inside the [try]) ends the program with status 1 after
    the whole analysis, and no output file is created. *)
Theorem main_unwritable_output w prog video_path output_path r :
  argv w = [prog; video_path; output_path] ->
  path_exists w video_path = true ->
  String.eqb (dirname output_path) "" = false ->
  makedirs_ok w (dirname output_path) = true ->
  detect_faces_in_video (open_video w video_path) = Analysed r ->
  can_open_write w output_path = false ->
  main w = mk_outcome 1 Untouched.
Proof.
  intros Hargs Hex Hd Hmk Hdet Hw. unfold main. now rewrite Hargs, Hex, Hd, Hmk, Hdet, Hw.
Qed.

End MainTheorems.

(** ** The ten-second video on the command line *)

Definition demo_world (args : list string) (present opened : bool) : world (A := still_face) :=
  @mk_world still_face args (fun _ => present) (fun _ => true)
    (fun _ => mk_capture opened 10 100 (seq 0 100)) (fun _ => true).

Lemma main_missing_video_witness :
  argv (demo_world ["face_detection.py"; "clip.mp4"; "out/faces.json"] false true) =
    ["face_detection.py"; "clip.mp4"; "out/faces.json"] /\
  main (demo_world ["face_detection.py"; "clip.mp4"; "out/faces.json"] false true) =
    mk_outcome 1 Untouched.
Proof. split; [reflexivity|]. apply (main_missing_video _ "face_detection.py" "clip.mp4" "out/faces.json"); reflexivity. Defined.

Lemma main_bare_output_name_witness :
  path_exists (demo_world ["face_detection.py"; "clip.mp4"; "faces.json"] true true) "clip.mp4" = true /\
  main (demo_world ["face_detection.py"; "clip.mp4"; "faces.json"] true true) =
    mk_outcome 1 Untouched.
Proof.
  split; [reflexivity|].
  apply (main_bare_output_name _ "face_detection.py" "clip.mp4" "faces.json"); reflexivity.
Defined.

Lemma main_unopened_video_witness :
  is_opened (open_video (demo_world ["face_detection.py"; "clip.mp4"; "out/faces.json"] true false)
               "clip.mp4") = false /\
  main (demo_world ["face_detection.py"; "clip.mp4"; "out/faces.json"] true false) =
    mk_outcome 0 Untouched.
Proof.
  split; [reflexivity|].
  apply (main_unopened_video _ "face_detection.py" "clip.mp4" "out/faces.json"); reflexivity.
Defined.

Lemma main_report_write_witness :
  detect_faces_in_video (A := still_face) ten_second_video = Analysed still_face_report /\
  main (demo_world ["face_detection.py"; "clip.mp4"; "out/faces.json"] true true) =
    mk_outcome 1 Truncated.
Proof.
  split; [vm_compute; reflexivity|].
  rewrite (main_report_write (demo_world ["face_detection.py"; "clip.mp4"; "out/faces.json"] true true)
             "face_detection.py" "clip.mp4" "out/faces.json" still_face_report)
    by (vm_compute; reflexivity).
  vm_compute. reflexivity.
Defined.

Lemma main_usage_witness :
  List.length (argv (demo_world ["face_detection.py"; "clip.mp4"] true true)) <> 3%nat /\
  main (demo_world ["face_detection.py"; "clip.mp4"] true true) = mk_outcome 1 Untouched.
Proof. split; [discriminate|]. apply main_usage. discriminate. Defined.

(** The ten-second video with an output file that cannot be opened. *)
Definition readonly_world : world (A := still_face) :=
  @mk_world still_face ["face_detection.py"; "clip.mp4"; "out/faces.json"] (fun _ => true)
    (fun _ => true) (fun _ => ten_second_video) (fun _ => false).

Lemma main_unwritable_output_witness :
  detect_faces_in_video (A := still_face) ten_second_video = Analysed still_face_report /\
  main readonly_world = mk_outcome 1 Untouched.
Proof.
  assert (Hdet : detect_faces_in_video (A := still_face) ten_second_video = Analysed still_face_report)
    by (vm_compute; reflexivity).
  split; [exact Hdet|].
  apply (main_unwritable_output readonly_world "face_detection.py" "clip.mp4" "out/faces.json"
           still_face_report); [reflexivity|reflexivity|reflexivity|reflexivity|exact Hdet|reflexivity].
Defined.
