(* ===== verification/Download.v ===== *)
(** * The video downloader (src/download.py)

    [download_video] (lines 32-47) and the [__main__] block (lines
    49-58). [yt_dlp] is the class [YoutubeDL]: its three calls act on an
    abstract world (the network and the file system) and either return or
    raise with a message. The script threads that world through a small
    error-state monad: [ret], [bind] with its notation, and [try_except]
    for the [try]/[except Exception] of lines 53-58. The [with] block
    closes the downloader on every path and has no other effect the
    script observes. Lines 1-27 are an earlier version left in comments. *)

From Stdlib Require Import ZArith List String.
Import ListNotations.

Local Open Scope string_scope.

(** The options dictionary of lines 33-41. *)
Record ydl_opts := mk_opts {
  format : string;
  outtmpl : string;
  noplaylist : bool;
  quiet : bool;
  verbose : bool;
  nocheckcertificate : bool;
  socket_timeout : Z
}.

(** Lines 33-41. *)
Definition download_opts : ydl_opts :=
  {| format := "best";
     outtmpl := "downloads/%(id)s.%(ext)s";
     noplaylist := true;
     quiet := false;
     verbose := true;
     nocheckcertificate := true;
     socket_timeout := 15 |}.

(** What the script uses of [yt_dlp.YoutubeDL(opts)]. A call returns
    [inr] of its value or raises: [inl] of [str(e)]. *)
Class YoutubeDL := {
  World : Type;
  Info : Type;
  (** [ydl.download(urls)]: the return code, or an exception. *)
  ydl_download : ydl_opts -> list string -> World -> (string + Z) * World;
  (** [ydl.extract_info(url, download=False)]. *)
  ydl_extract_info : ydl_opts -> string -> World -> (string + Info) * World;
  (** [ydl.prepare_filename(info)]: the output template filled in. *)
  ydl_prepare_filename : ydl_opts -> Info -> string
}.

Declare Scope ydl_scope.
Delimit Scope ydl_scope with ydl.

Section Script.
Context `{Y : YoutubeDL}.

(** Python code that acts on the world and may raise. *)
Definition M (X : Type) : Type := World -> (string + X) * World.

Definition ret {X} (x : X) : M X := fun w => (inr x, w).

Definition bind {X R} (m : M X) (k : X -> M R) : M R :=
  fun w => match m w with
           | (inl e, w') => (inl e, w')
           | (inr x, w') => k x w'
           end.

(** [try: ... except Exception as e: handler(str(e))]. *)
Definition try_except {X R} (m : M X) (ok : X -> M R) (handler : string -> M R) : M R :=
  fun w => match m w with
           | (inl e, w') => handler e w'
           | (inr x, w') => ok x w'
           end.

End Script.

Notation "x <- m ;; k" := (bind m (fun x => k))
  (at level 61, m at next level, right associativity) : ydl_scope.

Local Open Scope ydl_scope.

Section Download.
Context `{Y : YoutubeDL}.

(** Lines 32-47: download the video, then fetch its description a
    second time without downloading, and fill the output template. The
    return code of [ydl.download] is not looked at. *)
Definition download_video (url : string) : M string :=
  _retcode <- ydl_download download_opts [url] ;;
  info <- ydl_extract_info download_opts url ;;
  ret (ydl_prepare_filename download_opts info).

(** Lines 49-58: the line printed and the exit status. *)
Definition download_main (argv : list string) : M (string * Z) :=
  match argv with
  | [_; url] =>
      try_except (download_video url)
        (fun path => ret ("VIDEO_PATH: " ++ path, 0%Z))
        (fun e => ret ("ERROR: " ++ e, 1%Z))
  | _ => ret ("ERROR: Missing YouTube URL", 1%Z)
  end.

End Download.

Section Theorems.
Context `{Y : YoutubeDL}.

(** C35. A command line without exactly one argument prints the usage
    error and exits with status 1, before [yt_dlp] is called: the world is
    left as it was. *)
Theorem download_usage argv w :
  List.length argv <> 2 ->
  download_main argv w = (inr ("ERROR: Missing YouTube URL", 1%Z), w).
Proof.
  intro Hl. destruct argv as [|a [|b [|c argv]]]; try reflexivity. now contradiction Hl.
Qed.

(** C27. The script exits with status 0 exactly when it was given one
    URL, the download returned (whatever its return code) and the second
    request for the video's description returned. It then prints the
    template path [prepare_filename] gives for that description. *)
Theorem download_succeeds_iff argv w line w' :
  download_main argv w = (inr (line, 0%Z), w') <->
  exists prog url retcode w1 info,
    argv = [prog; url] /\
    ydl_download download_opts [url] w = (inr retcode, w1) /\
    ydl_extract_info download_opts url w1 = (inr info, w') /\
    line = ("VIDEO_PATH: " ++ ydl_prepare_filename download_opts info)%string.
Proof.
  split.
  - destruct argv as [|prog [|url [|c argv]]]; try discriminate.
    unfold download_main, try_except, download_video, bind, ret.
    destruct (ydl_download _ _ w) as [[e|rc] w1] eqn:Ed; [discriminate|].
    destruct (ydl_extract_info _ _ w1) as [[e|info] w2] eqn:Ee; [discriminate|].
    intro H. injection H as <- <-. exists prog, url, rc, w1, info. auto.
  - intros (prog & url & rc & w1 & info & -> & Ed & Ee & ->).
    unfold download_main, try_except, download_video, bind, ret. now rewrite Ed, Ee.
Qed.

(** C28. A failure after the download: when [ydl.download] has written
    the video and the second request ([extract_info] with
    [download=False]) raises, the script prints that error and exits with
    status 1. It does nothing more: the world is the one the failed
    request left, so the downloaded file stays on disk while the caller
    is told the acquisition failed. *)
Theorem download_late_failure prog url w retcode w1 e w2 :
  ydl_download download_opts [url] w = (inr retcode, w1) ->
  ydl_extract_info download_opts url w1 = (inl e, w2) ->
  download_main [prog; url] w = (inr ("ERROR: " ++ e, 1%Z), w2).
Proof.
  intros Ed Ee. unfold download_main, try_except, download_video, bind, ret. now rewrite Ed, Ee.
Qed.

End Theorems.

(** ** A downloader for the witnesses *)

(** The world is the list of files on disk. [https://youtu.be/a] can be
    downloaded and described; the description of [https://youtu.be/b]
    fails after its download. *)
#[local] Instance demo_ydl : YoutubeDL := {|
  World := list string;
  Info := string * string;
  ydl_download := fun _ urls w =>
    match urls with
    | [u] => if String.eqb u "https://youtu.be/x" then (inl "HTTP Error 404", w)
             else (inr 0%Z, (w ++ [u])%list)
    | _ => (inr 1%Z, w)
    end;
  ydl_extract_info := fun _ u w =>
    if String.eqb u "https://youtu.be/a" then (inr ("a", "mp4"), w) else (inl "Read timed out", w);
  ydl_prepare_filename := fun _ '(vid, ext) => "downloads/" ++ vid ++ "." ++ ext
|}.

Lemma download_usage_witness :
  List.length ["download.py"] <> 2 /\
  download_main ["download.py"] [] = (inr ("ERROR: Missing YouTube URL", 1%Z), []).
Proof. split; [discriminate|]. apply (download_usage (Y := demo_ydl)). discriminate. Defined.

Lemma download_succeeds_iff_witness :
  download_main ["download.py"; "https://youtu.be/a"] [] =
    (inr ("VIDEO_PATH: downloads/a.mp4", 0%Z), ["https://youtu.be/a"]).
Proof.
  apply (download_succeeds_iff (Y := demo_ydl)).
  exists "download.py", "https://youtu.be/a", 0%Z, ["https://youtu.be/a"], ("a", "mp4").
  repeat split.
Defined.

Lemma download_late_failure_witness :
  ydl_download download_opts ["https://youtu.be/b"] [] = (inr 0%Z, ["https://youtu.be/b"]) /\
  download_main ["download.py"; "https://youtu.be/b"] [] =
    (inr ("ERROR: Read timed out", 1%Z), ["https://youtu.be/b"]).
Proof.
  split; [reflexivity|].
  apply (download_late_failure (Y := demo_ydl) _ _ _ 0%Z ["https://youtu.be/b"]); reflexivity.
Defined.
